(** * book-recommender: the client-side record store and CSV import adapter

    A shallow embedding of [frontend/src/utils/storage.ts] (identity key,
    record store, shown-set tracker) and of the Goodreads CSV import adapter
    [utils/csvParser.ts], whose text follows the type declarations in
    [frontend/src/types/index.ts], and then the properties the specification
    states about them.  Strings are JavaScript strings, the persistent
    storage and the clock are threaded through every operation as a
    [World]. *)

From Stdlib Require Import Ascii String ZArith.
From stdpp Require Import gmap strings list fin_maps pretty.

Open Scope string_scope.
Open Scope list_scope.
Open Scope stdpp_scope.

(** ** JavaScript strings

    A JavaScript string is a sequence of UTF-16 code units.  The model keeps
    the code units U+0000..U+00FF (Basic Latin and Latin-1 Supplement): one
    [ascii] per code unit.  On that alphabet [toLowerCase] and [trim] below
    are the functions of ECMA-262: lower-casing never leaves the alphabet and
    is character-wise there, and the white space of [trim] is WhiteSpace
    plus LineTerminator. *)
Module Js.

Definition code (c : ascii) : N := N_of_ascii c.

(** WhiteSpace and LineTerminator code points below U+0100: TAB, LF, VT,
    FF, CR, SP and NBSP. *)
Definition isWhiteSpace (c : ascii) : bool :=
  match code c with
  | 9 | 10 | 11 | 12 | 13 | 32 | 160 => true
  | _ => false
  end%N.

(** Unicode simple lower-case mapping on U+0000..U+00FF: A-Z, and the
    Latin-1 capitals U+00C0..U+00DE but the multiplication sign U+00D7. *)
Definition lowerChar (c : ascii) : ascii :=
  let n := code c in
  if ((65 <=? n) && (n <=? 90) ||
      (192 <=? n) && (n <=? 222) && negb (n =? 215))%N
  then ascii_of_N (n + 32) else c.

Fixpoint toLowerCase (s : string) : string :=
  match s with
  | EmptyString => EmptyString
  | String c s' => String (lowerChar c) (toLowerCase s')
  end.

(** [String.prototype.toUpperCase].  It is not used by the program; the
    specification's testable property of the identity key is phrased with
    it.  Upper-casing leaves the alphabet at two code units (U+00B5 MICRO
    SIGN becomes U+039C, U+00FF becomes U+0178): there the result is
    [None].  U+00DF SHARP S becomes the two letters SS. *)
Definition upperChar (c : ascii) : option string :=
  let n := code c in
  if ((97 <=? n) && (n <=? 122) ||
      (224 <=? n) && (n <=? 254) && negb (n =? 247))%N
  then Some (String (ascii_of_N (n - 32)) EmptyString)
  else if (n =? 223)%N then Some "SS"
  else if ((n =? 181) || (n =? 255))%N then None
  else Some (String c EmptyString).

Fixpoint toUpperCase (s : string) : option string :=
  match s with
  | EmptyString => Some EmptyString
  | String c s' =>
      match upperChar c, toUpperCase s' with
      | Some u, Some r => Some (u +:+ r)
      | _, _ => None
      end
  end.

Fixpoint trimStart (s : string) : string :=
  match s with
  | EmptyString => EmptyString
  | String c s' => if isWhiteSpace c then trimStart s' else s
  end.

Fixpoint trimEnd (s : string) : string :=
  match s with
  | EmptyString => EmptyString
  | String c s' =>
      match trimEnd s' with
      | EmptyString => if isWhiteSpace c then EmptyString else String c EmptyString
      | r => String c r
      end
  end.

Definition trim (s : string) : string := trimEnd (trimStart s).

(** Every code unit of [s] satisfies [p]. *)
Fixpoint all (p : ascii -> bool) (s : string) : bool :=
  match s with
  | EmptyString => true
  | String c s' => p c && all p s'
  end.

Definition isBlank (s : string) : bool := all isWhiteSpace s.
Definition isAscii (s : string) : bool := all (fun c => (code c <? 128)%N) s.

(** Truthiness of a string value: every string but the empty one. *)
Definition truthy (s : string) : bool :=
  match s with EmptyString => false | String _ _ => true end.

(** [v || d] and [v || undefined] for a value that is a string or
    [undefined] ([None]). *)
Definition orElse (v : option string) (d : string) : string :=
  match v with
  | Some (String c s) => String c s
  | _ => d
  end.

Definition orUndefined (v : option string) : option string :=
  match v with
  | Some (String c s) => Some (String c s)
  | _ => None
  end.

Definition truthyOpt (v : option string) : bool :=
  match v with
  | Some s => truthy s
  | None => false
  end.

(** [parseInt(s, 10)]: leading white space is skipped, then an optional sign
    and the longest run of decimal digits are read; [None] is NaN (no digit).
    The value is the mathematical integer, which is the Number [parseInt]
    returns as long as it is below 2^53. *)
Definition digit (c : ascii) : option Z :=
  let n := code c in
  if ((48 <=? n) && (n <=? 57))%N then Some (Z.of_N (n - 48)) else None.

Fixpoint digits (s : string) (acc : option Z) : option Z :=
  match s with
  | EmptyString => acc
  | String c s' =>
      match digit c with
      | Some d => digits s' (Some (10 * default 0 acc + d))%Z
      | None => acc
      end
  end.

Definition parseInt10 (s : string) : option Z :=
  match trimStart s with
  | String "-" r => Z.opp <$> digits r None
  | String "+" r => digits r None
  | r => digits r None
  end.

(** [n || 0] for a Number: NaN and 0 are falsy. *)
Definition orZero (n : option Z) : Z := default 0%Z n.

End Js.

(** ** The identity key ([makeKey], storage.ts lines 6-8) *)

Definition makeKey (title author : string) : string :=
  Js.trim (Js.toLowerCase title) +:+ "::" +:+ Js.trim (Js.toLowerCase author).

(** The key as the specification words it: lower-case of the trimmed text. *)
Definition identityKey_spec (title author : string) : string :=
  Js.toLowerCase (Js.trim title) +:+ "::" +:+ Js.toLowerCase (Js.trim author).


(** ** Data model ([frontend/src/types/index.ts]) *)

Inductive Source := goodreads | manual | recommended.

(** [Omit<BookEntry, 'book_key' | 'date_updated'>]: the part of a book record
    the callers of the store provide.  [rating] is 0 for an unrated book. *)
Record BookFields := {
  title : string;
  author : string;
  rating : Z;
  shelf : string;
  genre : option string;
  review : option string;
  bookshelves : option string;
  isbn : option string;
  source : Source;
}.

(** [BookEntry]: the fields above together with the two the store assigns.
    The object literal [{...b, book_key: key, date_updated: d}] is
    [{| book_key := key; fields := b; date_updated := d |}]: spreading a [b]
    that already carries [book_key] or [date_updated] changes nothing, the
    two properties written after the spread win. *)
Record BookEntry := {
  book_key : string;
  fields :> BookFields;
  date_updated : string;
}.

(** ** The browser environment: [localStorage] and the clock *)

(** The text held by a [localStorage] slot, told apart by what the program
    can observe of it: the empty string (falsy), text on which [JSON.parse]
    throws, and the text [JSON.stringify v], which [JSON.parse] reads back
    as [v]. *)
Inductive Blob (A : Type) :=
| EmptyText
| Malformed
| Serialized (value : A).
Arguments EmptyText {A}.
Arguments Malformed {A}.
Arguments Serialized {A} value.

(** The two slots, under the keys [STORE_KEY = 'bookStore'] and
    [SHOWN_KEY = 'shownBookIds'].  [None] is a slot that is not set:
    [getItem] returns [null]. *)
Record LocalStorage := {
  bookStore : option (Blob (list BookEntry));
  shownBookIds : option (Blob (list string));
}.

(** [clock w n] is the text of the [n]-th [new Date().toISOString()] the
    environment will answer; [now w] counts the readings made so far. *)
Record World := {
  storage : LocalStorage;
  clock : nat -> string;
  now : nat;
}.

Definition Date_toISOString (w : World) : string * World :=
  (clock w (now w), {| storage := storage w; clock := clock w; now := S (now w) |}).

Definition setStorage (ls : LocalStorage) (w : World) : World :=
  {| storage := ls; clock := clock w; now := now w |}.

(** Exceptions: the value of an expression, or the error it throws. *)
Inductive Exc (A : Type) :=
| Return (a : A)
| Throw (name : string).
Arguments Return {A} a.
Arguments Throw {A} name.

(** [try { body } catch { return handler }] *)
Definition try_catch {A} (body : Exc A) (handler : A) : A :=
  match body with
  | Return a => a
  | Throw _ => handler
  end.

Definition JSON_parse {A} (raw : Blob A) : Exc A :=
  match raw with
  | Serialized v => Return v
  | EmptyText | Malformed => Throw "SyntaxError"
  end.

Definition JSON_stringify {A} (v : A) : Blob A := Serialized v.

(** Truthiness of what [getItem] returned: [null] and the empty string are
    falsy. *)
Definition raw_truthy {A} (raw : option (Blob A)) : bool :=
  match raw with
  | None | Some EmptyText => false
  | Some _ => true
  end.

(** [raw ? JSON.parse(raw) : []] *)
Definition parse_or_empty {A} (raw : option (Blob (list A))) : Exc (list A) :=
  match raw with
  | Some text => if raw_truthy raw then JSON_parse text else Return []
  | None => Return []
  end.

(** ** [Map<string, V>]

    A JavaScript [Map] keeps its keys in insertion order; [set] on a key it
    already has replaces the value where the key stands. *)
Abbreviation JsMap V := (list (string * V)).

Fixpoint map_get {V} (k : string) (m : JsMap V) : option V :=
  match m with
  | [] => None
  | (k', v) :: m' => if (k' =? k)%string then Some v else map_get k m'
  end.

Fixpoint map_set {V} (k : string) (v : V) (m : JsMap V) : JsMap V :=
  match m with
  | [] => [(k, v)]
  | (k', v') :: m' =>
      if (k' =? k)%string then (k, v) :: m' else (k', v') :: map_set k v m'
  end.

(** [new Map(entries)] *)
Definition Map_new {V} (entries : list (string * V)) : JsMap V :=
  fold_left (fun m kv => map_set kv.1 kv.2 m) entries [].

Definition map_keys {V} (m : JsMap V) : list string := m.*1.
Definition map_values {V} (m : JsMap V) : list V := m.*2.
Definition map_size {V} (m : JsMap V) : nat := length m.

(** [new Set(items)] then [Array.from]: the items in the order of their
    first occurrence. *)
Definition set_add (s : list string) (x : string) : list string :=
  if decide (x ∈ s) then s else s ++ [x].

Definition Set_new (items : list string) : list string :=
  fold_left set_add items [].

(** [Array.prototype.findIndex]; [None] stands for -1. *)
Fixpoint findIndex {A} (p : A -> bool) (l : list A) : option nat :=
  match l with
  | [] => None
  | x :: l' => if p x then Some 0 else S <$> findIndex p l'
  end.

(** ** The record store ([frontend/src/utils/storage.ts]) *)

Definition readStore (w : World) : list BookEntry :=
  try_catch (parse_or_empty (bookStore (storage w))) [].

Definition writeStore (entries : list BookEntry) (w : World) : World :=
  setStorage {| bookStore := Some (JSON_stringify entries);
                shownBookIds := shownBookIds (storage w) |} w.

Record MergeResult := {
  total : nat;
  updated : nat;
}.

(** The state of the [for] loop of [mergeBooks]. *)
Record MergeLoop := {
  storeMap : JsMap BookEntry;
  updatedCount : nat;
  world : World;
}.

(** One turn of the loop, for the incoming record [b]. *)
Definition merge_step (st : MergeLoop) (b : BookFields) : MergeLoop :=
  let key := makeKey (title b) (author b) in
  let existing := map_get key (storeMap st) in
  let updated :=
    if existing is Some _ then S (updatedCount st) else updatedCount st in
  let '(stamp, w) := Date_toISOString (world st) in
  {| storeMap :=
       map_set key {| book_key := key; fields := b; date_updated := stamp |}
         (storeMap st);
     updatedCount := updated;
     world := w |}.

Definition mergeBooks (incoming : list BookFields) (w : World) : MergeResult * World :=
  let store := readStore w in
  let m := Map_new (map (fun e => (book_key e, e)) store) in
  let st := fold_left merge_step incoming
              {| storeMap := m; updatedCount := 0; world := w |} in
  let w := writeStore (map_values (storeMap st)) (world st) in
  ({| total := map_size (storeMap st); updated := updatedCount st |}, w).

Definition upsertBook (book : BookFields) (w : World) : World :=
  let store := readStore w in
  let key := makeKey (title book) (author book) in
  let idx := findIndex (fun e => (book_key e =? key)%string) store in
  let '(stamp, w) := Date_toISOString w in
  let entry := {| book_key := key; fields := book; date_updated := stamp |} in
  let store :=
    match idx with
    | Some i => <[i := entry]> store
    | None => store ++ [entry]
    end in
  writeStore store w.

Definition getRatedBooks (w : World) : list BookEntry :=
  filter (fun e : BookEntry => (1 <= rating e)%Z) (readStore w).

Definition getAllBooks (w : World) : list BookEntry := readStore w.

Definition getBookCount (w : World) : nat := length (readStore w).

(** ** The shown-set tracker *)

Definition getShownBookIds (w : World) : list string :=
  try_catch (parse_or_empty (shownBookIds (storage w))) [].

Definition addShownBookIds (ids : list string) (w : World) : World :=
  let current := getShownBookIds w in
  let next := Set_new (current ++ ids) in
  setStorage {| bookStore := bookStore (storage w);
                shownBookIds := Some (JSON_stringify next) |} w.

Definition clearShownBookIds (w : World) : World :=
  setStorage {| bookStore := bookStore (storage w); shownBookIds := None |} w.

Definition clearAll (w : World) : World :=
  setStorage {| bookStore := None; shownBookIds := None |} w.

(** A browser profile in which neither slot was ever written. *)
Definition fresh_world (clk : nat -> string) : World :=
  {| storage := {| bookStore := None; shownBookIds := None |};
     clock := clk; now := 0 |}.

(** ** Slots whose text decodes to another shape

    [JSON.parse(raw)] is returned at the type [BookEntry[]] (or [string[]])
    without a check, and [localStorage] holds whatever text was put there.
    The definitions above describe the slots at the types the program gives
    them; the ones below admit every text, and agree with them on the typed
    ones. *)
Module Untyped.

(** A JSON value.  A number is given by its literal: no function below
    looks into it.  The properties of an object stand in the order of the
    text. *)
#[warnings="-register-all"] Inductive Json :=
| JNull
| JBool (b : bool)
| JNumber (literal : string)
| JString (s : string)
| JArray (items : list Json)
| JObject (props : list (string * Json)).

(** The text of a slot that the program reads at type [A]: one of the texts
    of [Blob A], or the text of a JSON value that is not the serialization
    of a value of [A]. *)
Inductive Text (A : Type) :=
| Typed (text : Blob A)
| Foreign (j : Json).
Arguments Typed {A} text.
Arguments Foreign {A} j.

(** What the program holds at the static type [A] after [JSON.parse]: a
    value of [A], or some other JSON value. *)
Inductive Value (A : Type) :=
| Shaped (v : A)
| Unshaped (j : Json).
Arguments Shaped {A} v.
Arguments Unshaped {A} j.

Record LocalStorage := {
  bookStore : option (Text (list BookEntry));
  shownBookIds : option (Text (list string));
}.

(** On a typed text as above; the other JSON value is returned as it is. *)
Definition JSON_parse {A} (raw : Text A) : Exc (Value A) :=
  match raw with
  | Typed EmptyText | Typed Malformed => Throw "SyntaxError"
  | Typed (Serialized v) => Return (Shaped v)
  | Foreign j => Return (Unshaped j)
  end.

(** The text of a JSON value is not empty. *)
Definition raw_truthy {A} (raw : option (Text A)) : bool :=
  match raw with
  | None | Some (Typed EmptyText) => false
  | Some _ => true
  end.

(** [raw ? JSON.parse(raw) : []] *)
Definition parse_or_empty {A} (raw : option (Text (list A))) : Exc (Value (list A)) :=
  match raw with
  | Some text => if raw_truthy raw then JSON_parse text else Return (Shaped [])
  | None => Return (Shaped [])
  end.

(** [readStore] (lines 10-17) *)
Definition readStore (ls : LocalStorage) : Value (list BookEntry) :=
  try_catch (parse_or_empty (bookStore ls)) (Shaped []).

(** [getShownBookIds] (lines 91-98) *)
Definition getShownBookIds (ls : LocalStorage) : Value (list string) :=
  try_catch (parse_or_empty (shownBookIds ls)) (Shaped []).

(** What a property access evaluates to. *)
Inductive Answer :=
| Undefined
| Num (n : nat)
| Data (j : Json).

(** The value of the own property [name] of a parsed object: of two
    properties with one name in the text, [JSON.parse] keeps the later. *)
Fixpoint get_prop (name : string) (props : list (string * Json)) : option Json :=
  match props with
  | [] => None
  | (k, j) :: rest =>
      match get_prop name rest with
      | Some j' => Some j'
      | None => if (k =? name)%string then Some j else None
      end
  end.

(** [x.length]: a [TypeError] on [null]; the number of items of an array and
    of code units of a string; the property of that name of an object, if it
    has one; [undefined] on a boolean and on a number. *)
Definition length_of {A} (x : Value (list A)) : Exc Answer :=
  match x with
  | Shaped v => Return (Num (length v))
  | Unshaped JNull => Throw "TypeError"
  | Unshaped (JBool _) | Unshaped (JNumber _) => Return Undefined
  | Unshaped (JString s) => Return (Num (String.length s))
  | Unshaped (JArray items) => Return (Num (length items))
  | Unshaped (JObject props) =>
      Return (match get_prop "length" props with
              | Some j => Data j
              | None => Undefined
              end)
  end.

(** [getBookCount] (lines 85-87) *)
Definition getBookCount (ls : LocalStorage) : Exc Answer :=
  length_of (readStore ls).

End Untyped.


(** ** Vocabulary of the statements *)

(** The identity key of an incoming record. *)
Definition keyOf (b : BookFields) : string := makeKey (title b) (author b).

(** The entry the store writes for the incoming record [b] at clock reading
    [stamp]. *)
Definition stamped (b : BookFields) (stamp : string) : BookEntry :=
  {| book_key := keyOf b; fields := b; date_updated := stamp |}.

(** The keys of the stored records, in their order. *)
Definition keys_of (store : list BookEntry) : list string := book_key <$> store.

(** The records of [store] whose key is the key of some incoming record: the
    pre-existing records a merge of [incoming] overwrites. *)
Definition overwritten (store : list BookEntry) (incoming : list BookFields)
  : list BookEntry :=
  filter (fun e : BookEntry => book_key e ∈ keyOf <$> incoming) store.

(** The number of incoming records whose key is present when their turn
    comes: it is in [present], the keys there before, or it is the key of an
    earlier incoming record. *)
Fixpoint already_present (present : list string) (incoming : list BookFields)
  : nat :=
  match incoming with
  | [] => 0
  | b :: rest =>
      (if decide (keyOf b ∈ present) then 1 else 0)
      + already_present (keyOf b :: present) rest
  end.

(** Each entry of the map stands under its own [book_key]. *)
Definition keyed (m : JsMap BookEntry) : Prop :=
  Forall (fun kv => book_key kv.2 = kv.1) m.

(** The world after [n] clock readings. *)
Definition ticked (n : nat) (w : World) : World :=
  {| storage := storage w; clock := clock w; now := now w + n |}.

(** The store states the program can reach from a store that reads as empty
    by merging and upserting. *)
Inductive reachable : World -> Prop :=
| reach_empty w : readStore w = [] -> reachable w
| reach_merge incoming w : reachable w -> reachable (mergeBooks incoming w).2
| reach_upsert book w : reachable w -> reachable (upsertBook book w).

(** The map [mergeBooks] builds from the stored array (line 31). *)
Definition store_map (store : list BookEntry) : JsMap BookEntry :=
  Map_new ((fun e => (book_key e, e)) <$> store).

(** The loop of [mergeBooks] run on the store of [w]. *)
Definition merge_loop (incoming : list BookFields) (w : World) : MergeLoop :=
  fold_left merge_step incoming
    {| storeMap := store_map (readStore w); updatedCount := 0; world := w |}.

(** ** The CSV import adapter ([cleanIsbn], [makeKey] and
    [parseGoodreadsCSV], lines 48-113 of [frontend/src/types/index.ts]) *)

Module CsvParser.

(** [RawRow = Record<string, string>]: one parsed line, from column name to
    cell text. *)
Abbreviation RawRow := (gmap string string).

(** What the tokenizer (Papa.parse with [header: true]) hands back: the
    [complete] callback with the data rows, or the [error] callback. *)
Inductive PapaResult :=
| PapaComplete (data : list RawRow)
| PapaError (message : string).

(** The three ways the returned promise is rejected. *)
Inductive ImportError :=
| EmptyInput
| SchemaMismatch (missing : list string)
| ParseFailure (message : string).

(** The message of the [Error] the promise is rejected with. *)
Definition error_message (e : ImportError) : string :=
  match e with
  | EmptyInput => "CSV file is empty"
  | SchemaMismatch missing =>
      "This doesn't look like a Goodreads export. Missing columns: "
      +:+ String.concat ", " missing
  | ParseFailure message => "CSV parse error: " +:+ message
  end.

Definition quote : ascii := "034"%char.

(** The first [replace] of [cleanIsbn]: a leading equals sign, and the
    double quote after it when there is one, are removed. *)
Definition stripWrapStart (s : string) : string :=
  match s with
  | String "=" r =>
      match r with
      | String q r' => if Ascii.eqb q quote then r' else r
      | EmptyString => r
      end
  | _ => s
  end.

(** The second [replace] of [cleanIsbn]: a double quote at the very end is
    removed. *)
Fixpoint stripQuoteEnd (s : string) : string :=
  match s with
  | EmptyString => EmptyString
  | String c r =>
      match r with
      | EmptyString => if Ascii.eqb c quote then EmptyString else s
      | String _ _ => String c (stripQuoteEnd r)
      end
  end.

Definition cleanIsbn (val : option string) : option string :=
  match val with
  | Some (String c s) =>
      Js.orUndefined (Some (Js.trim (stripQuoteEnd (stripWrapStart (String c s)))))
  | _ => None
  end.

(** The adapter's own copy of the identity function (lines 54-56). *)
Definition makeKey (title author : string) : string :=
  Js.trim (Js.toLowerCase title) +:+ "::" +:+ Js.trim (Js.toLowerCase author).

Definition required : list string :=
  ["Title"; "Author"; "My Rating"; "Exclusive Shelf"].

(** [row[col]?.trim()] *)
Definition cell_trim (row : RawRow) (col : string) : option string :=
  Js.trim <$> row !! col.

(** The filter of line 85: the rows whose title is not blank. *)
Definition has_title (row : RawRow) : bool := Js.truthyOpt (cell_trim row "Title").

(** [a || b] on cells *)
Definition orCell (a b : option string) : option string :=
  if Js.truthyOpt a then a else b.

(** The body of the [map] of lines 86-104. *)
Definition row_to_entry (row : RawRow) (w : World) : BookEntry * World :=
  let ttl := Js.orElse (cell_trim row "Title") "" in
  let auth := Js.orElse (cell_trim row "Author") "" in
  let rate := Js.orZero (Js.parseInt10 (Js.orElse (row !! "My Rating") "0")) in
  let shlf := Js.orElse (cell_trim row "Exclusive Shelf") "read" in
  let '(stamp, w) := Date_toISOString w in
  ({| book_key := makeKey ttl auth;
      fields := {| title := ttl;
                   author := auth;
                   rating := rate;
                   shelf := shlf;
                   genre := None;
                   review := Js.orUndefined (cell_trim row "My Review");
                   bookshelves := Js.orUndefined (cell_trim row "Bookshelves");
                   isbn := cleanIsbn (orCell (row !! "ISBN") (row !! "ISBN13"));
                   source := goodreads |};
      date_updated := stamp |}, w).

Fixpoint map_rows (rows : list RawRow) (w : World) : list BookEntry * World :=
  match rows with
  | [] => ([], w)
  | row :: rest =>
      let '(e, w) := row_to_entry row w in
      let '(es, w) := map_rows rest w in
      (e :: es, w)
  end.

(** The settlement of the promise: [inl] is [reject], [inr] is [resolve]. *)
Definition parseGoodreadsCSV (file : PapaResult) (w : World)
  : (ImportError + list BookEntry) * World :=
  match file with
  | PapaError message => (inl (ParseFailure message), w)
  | PapaComplete rows =>
      match rows with
      | [] => (inl EmptyInput, w)
      | firstRow :: _ =>
          let missing := filter (fun col => firstRow !! col = None) required in
          if bool_decide (0 < length missing) then (inl (SchemaMismatch missing), w)
          else
            let '(books, w) := map_rows (List.filter has_title rows) w in
            (inr books, w)
      end
  end.

End CsvParser.

(** [handleCsvUpload] of the library page (lines 188-202 of
    [frontend/src/utils/storage.ts]): parse, then merge what was parsed.  The
    parsed records reach [mergeBooks] at the type
    [Omit<BookEntry, 'book_key' | 'date_updated'>].  The [catch] also
    encloses the call of [mergeBooks]; on a [World], whose slots hold texts
    of their types and whose [setItem] stores what it is given, that call
    raises nothing, so that the error reported here is the rejection of the
    adapter. *)
Definition handleCsvUpload (file : CsvParser.PapaResult) (w : World)
  : (CsvParser.ImportError + MergeResult) * World :=
  match CsvParser.parseGoodreadsCSV file w with
  | (inr parsed, w) =>
      let '(result, w) := mergeBooks (fields <$> parsed) w in
      (inr result, w)
  | (inl e, w) => (inl e, w)
  end.

(** ** Sample data for the worked examples *)

(** A clock whose readings are one second apart. *)
Definition sample_clock (n : nat) : string :=
  "2024-05-01T10:00:0" +:+ String (ascii_of_nat (48 + n)) ".000Z".

Definition dune : BookFields :=
  {| title := "Dune"; author := "Frank Herbert"; rating := 5; shelf := "read";
     genre := None; review := None; bookshelves := None; isbn := None;
     source := goodreads |}.

(** The same book as a manual edit lowers its rating. *)
Definition dune_manual : BookFields :=
  {| title := "Dune"; author := "Frank Herbert"; rating := 4; shelf := "read";
     genre := None; review := None; bookshelves := None; isbn := None;
     source := manual |}.

Definition emma : BookFields :=
  {| title := "Emma"; author := "Jane Austen"; rating := 0; shelf := "to-read";
     genre := None; review := None; bookshelves := None; isbn := None;
     source := goodreads |}.

(** The store after a first import of two books. *)
Definition sample_world : World :=
  (mergeBooks [dune; emma] (fresh_world sample_clock)).2.

(** A store slot that holds two records under one key. *)
Definition twice_stored : World :=
  {| storage :=
       {| bookStore := Some (Serialized [stamped dune (sample_clock 0);
                                         stamped dune_manual (sample_clock 1)]);
          shownBookIds := None |};
     clock := sample_clock; now := 2 |}.


(** U+00DF, LATIN SMALL LETTER SHARP S. *)
Definition sharp_s : string := String "223"%char "".

(** One row of a Goodreads export. *)
Definition dune_row : gmap string string :=
  list_to_map [("Title", "Dune"); ("Author", "Frank Herbert");
               ("My Rating", "5"); ("Exclusive Shelf", "read")].

(** The same row when the export has no Author column. *)
Definition dune_row_no_author : gmap string string := delete "Author" dune_row.

(** A row whose title is white space only. *)
Definition blank_row : gmap string string := <["Title" := "   "]> dune_row.

(** The title of the row is absent or white space only. *)
Definition blank_title (row : gmap string string) : bool :=
  match row !! "Title" with
  | Some t => Js.isBlank t
  | None => true
  end.

(** The entry with its shelf replaced. *)
Definition set_shelf (s : string) (e : BookEntry) : BookEntry :=
  {| book_key := book_key e;
     fields := {| title := title e; author := author e; rating := rating e;
                  shelf := s; genre := genre e; review := review e;
                  bookshelves := bookshelves e; isbn := isbn e;
                  source := source e |};
     date_updated := date_updated e |}.
(** ** The handlers of the library page
    ([LibraryPage], lines 114-342 of [frontend/src/utils/storage.ts]) *)

(** The object literal [{ ...book, rating: newRating }] at the type
    [Omit<BookEntry, 'book_key' | 'date_updated'>]. *)
Definition with_rating (newRating : Z) (book : BookFields) : BookFields :=
  {| title := title book; author := author book; rating := newRating;
     shelf := shelf book; genre := genre book; review := review book;
     bookshelves := bookshelves book; isbn := isbn book;
     source := source book |}.

(** [handleRatingChange] (lines 204-207): the rating stars of a row of the
    book table. *)
Definition handleRatingChange (book : BookEntry) (newRating : Z) (w : World) : World :=
  upsertBook (with_rating newRating book) w.

(** [handleAddBook] (lines 182-186): [genre || undefined] is [None] for the
    empty text. *)
Definition handleAddBook
    (title author : string) (rating : Z) (genre shelf : string) (w : World) : World :=
  upsertBook {| title := title; author := author; rating := rating;
                shelf := shelf; genre := Js.orUndefined (Some genre);
                review := None; bookshelves := None; isbn := None;
                source := manual |} w.

(** [String.prototype.includes]: [q] occurs in [s]. *)
Fixpoint includes (s q : string) : bool :=
  String.prefix q s
  || match s with
     | EmptyString => false
     | String _ s' => includes s' q
     end.

(** The test of the two search boxes (the Rate a Book box, lines 151-157,
    and the box of the book table): the lower-cased title or author
    includes [q]. *)
Definition mentions (q : string) (b : BookEntry) : bool :=
  includes (Js.toLowerCase (title b)) q || includes (Js.toLowerCase (author b)) q.

(** The state of the Rate a Book section. *)
Record RateForm := {
  rateQuery : string;
  rateRating : Z;
  rateSaved : bool;
  lastAddedTitle : option string;
}.

(** [matched] (lines 151-157): the first stored book the query mentions,
    once the trimmed query has two code units. *)
Definition matched (query : string) (w : World) : option BookEntry :=
  if (2 <=? String.length (Js.trim query))%nat
  then List.find (mentions (Js.toLowerCase query)) (getAllBooks w)
  else None.

(** [handleRateSave] (lines 159-180).  The first component is the text of
    the [alert], when there is one.  The two timers that clear the
    highlight and the toast are left out. *)
Definition handleRateSave (form : RateForm) (w : World)
  : option string * RateForm * World :=
  let m := matched (rateQuery form) w in
  let ttl := match m with Some b => title b | None => Js.trim (rateQuery form) end in
  let auth := match m with Some b => author b | None => "" end in
  if negb (Js.truthy ttl) then (Some "Enter a book title.", form, w)
  else if (rateRating form =? 0)%Z then (Some "Select a rating.", form, w)
  else
    let w := upsertBook
               {| title := ttl; author := auth; rating := rateRating form;
                  shelf := match m with Some b => shelf b | None => "read" end;
                  genre := None;
                  review := match m with Some b => review b | None => None end;
                  bookshelves := match m with Some b => bookshelves b | None => None end;
                  isbn := match m with Some b => isbn b | None => None end;
                  source := recommended |} w in
    (None,
     {| rateQuery := ""; rateRating := 0; rateSaved := true;
        lastAddedTitle := Some ttl |},
     w).

(** ** The book table ([BookTable], lines 48-230 of [unnamed/part_001]) *)

Definition PAGE_SIZE : nat := 20.

(** [filtered] (lines 106-113) *)
Definition filtered (search : string) (books : list BookEntry) : list BookEntry :=
  let q := Js.toLowerCase search in
  List.filter (mentions q) books.

(** [Math.ceil(n / d)] for two array sizes. *)
Definition ceil_div (n d : nat) : nat :=
  if (n mod d =? 0)%nat then n / d else S (n / d).

(** [totalPages] (line 127) *)
Definition totalPages {A} (sorted : list A) : nat := ceil_div (length sorted) PAGE_SIZE.

(** [Array.prototype.slice(from, to)] for [from <= to]. *)
Definition slice {A} (from to : nat) (l : list A) : list A :=
  take (to - from) (drop from l).

(** [visible] (line 128) *)
Definition visible {A} (page : nat) (sorted : list A) : list A :=
  slice (page * PAGE_SIZE) ((page + 1) * PAGE_SIZE) sorted.

(** The Next button (line 223): disabled on the last page.  [totalPages - 1]
    is computed on integers, it is -1 for an empty table. *)
Definition nextPage {A} (page : nat) (sorted : list A) : nat :=
  if (Z.of_nat (totalPages sorted) - 1 <=? Z.of_nat page)%Z then page else S page.

(** The Prev button (line 217): disabled on the first page. *)
Definition prevPage (page : nat) : nat :=
  if (page =? 0)%nat then page else page - 1.

(** ** The recommendation request
    ([getRecommendations], lines 14-52 of [unnamed/part_000], and
    [fetchRecs], lines 116-147 of [frontend/src/pages/LandingPage.tsx]) *)

Section recommender.

(** The type of [predicted_rating], a JSON number the client only shows. *)
Context {Number : Type}.

(** [Recommendation] ([types/index.ts], lines 15-25); [rec_title],
    [rec_author] and [rec_genre] are its [title], [author] and [genre]. *)
Record Recommendation := {
  rec_title : string;
  rec_author : string;
  description : string;
  cover_url : option string;
  google_books_id : string;
  rec_genre : string;
  reason : string;
  predicted_rating : Number;
  is_new_author : bool;
}.

Record RecommendResponse := {
  recommendations : list Recommendation;
  preference_summary : string;
}.

(** One element of [read_books]; [None] is [null]. *)
Record ReadBook := {
  rb_title : string;
  rb_author : string;
  rb_rating : Z;
  rb_shelf : string;
  rb_review : option string;
  rb_bookshelves : option string;
  rb_isbn : option string;
}.

(** The body of the POST request. *)
Record RecommendRequest := {
  read_books : list ReadBook;
  genre_mood : option string;
  exclude_book_ids : list string;
  count : nat;
}.

(** What [fetch] and the decoding of the answer come to: a success with its
    data; a status that is not ok, with the [detail] of the error body when
    the body decodes and has one; or a rejection with the message of its
    [Error]. *)
Inductive FetchResult :=
| HttpOk (data : RecommendResponse)
| HttpNotOk (detail : option string)
| Rejected (message : string).

(** The backend and the network: they answer every request. *)
Context (backend : RecommendRequest -> FetchResult).

(** The request body (lines 20-33), with the default [count = 5]. *)
Definition request_body
    (ratedBooks : list BookEntry) (genreMood : string) (excludeBookIds : list string)
  : RecommendRequest :=
  {| read_books :=
       (fun b : BookEntry =>
          {| rb_title := title b; rb_author := author b; rb_rating := rating b;
             rb_shelf := shelf b; rb_review := review b;
             rb_bookshelves := bookshelves b; rb_isbn := isbn b |})
       <$> ratedBooks;
     genre_mood := Js.orUndefined (Some (Js.trim genreMood));
     exclude_book_ids := excludeBookIds;
     count := 5 |}.

Definition getRecommendations
    (ratedBooks : list BookEntry) (genreMood : string) (excludeBookIds : list string)
  : Exc RecommendResponse :=
  match backend (request_body ratedBooks genreMood excludeBookIds) with
  | HttpOk data => Return data
  | HttpNotOk detail => Throw (Js.orElse detail "Recommendation failed")
  | Rejected message => Throw message
  end.

Inductive Stage := setup | loading | results | error.

(** The state of the recommender page that [fetchRecs] reads and writes. *)
Record RecommenderState := {
  genreMood : string;
  stage : Stage;
  errorText : string;
  recs : list Recommendation;
  preferenceSummary : string;
  batchNumber : nat;
  refreshing : bool;
}.

(** [fetchRecs] (lines 116-147), from the click to the end of the [finally]
    block: the request is awaited without any other handler running in
    between. *)
Definition fetchRecs (isRefresh : bool) (st : RecommenderState) (w : World)
  : RecommenderState * World :=
  let rated := getRatedBooks w in
  if (length rated <? 3)%nat then
    ({| genreMood := genreMood st; stage := error;
        errorText := "You need at least 3 rated books. Add more in My Library & Ratings.";
        recs := recs st; preferenceSummary := preferenceSummary st;
        batchNumber := batchNumber st; refreshing := refreshing st |}, w)
  else
    let shown := getShownBookIds w in
    match getRecommendations rated (genreMood st) shown with
    | Return data =>
        let ids := google_books_id <$> recommendations data in
        ({| genreMood := genreMood st; stage := results; errorText := "";
            recs := recommendations data;
            preferenceSummary := preference_summary data;
            batchNumber := S (batchNumber st); refreshing := false |},
         addShownBookIds ids w)
    | Throw message =>
        ({| genreMood := genreMood st; stage := error; errorText := message;
            recs := recs st; preferenceSummary := preferenceSummary st;
            batchNumber := batchNumber st; refreshing := false |}, w)
    end.

(** The request [fetchRecs] sends from a state, when it sends one. *)
Definition request_sent (st : RecommenderState) (w : World) : option RecommendRequest :=
  if (length (getRatedBooks w) <? 3)%nat then None
  else Some (request_body (getRatedBooks w) (genreMood st) (getShownBookIds w)).

(** [handleRate] (lines 149-159), its effect on the store. *)
Definition handleRate (rec : Recommendation) (rating : Z) (w : World) : World :=
  upsertBook {| title := rec_title rec; author := rec_author rec; rating := rating;
                shelf := "read"; genre := None; review := None;
                bookshelves := None; isbn := None; source := recommended |} w.

End recommender.

(** What happens on the recommender page, one handler at a time: a request
    ([fetchRecs], lines 116-147), a change of the mood input
    ([setGenreMood], lines 188 and 248), a rating ([handleRate], lines
    149-159) and the button Try again ([setStage('setup')], line 220).  A
    request comes with what the backend and the network answer at that
    moment: the answer to one and the same request may differ from one
    [Fetch] to the next. *)
Inductive PageEvent {Number : Type} :=
| Fetch (isRefresh : bool) (backend : RecommendRequest -> @FetchResult Number)
| TypeMood (text : string)
| Rate (rec : @Recommendation Number) (rating : Z)
| TryAgain.

Definition page_step {Number : Type}
    (s : @RecommenderState Number * World) (ev : @PageEvent Number)
  : @RecommenderState Number * World :=
  match ev with
  | Fetch isRefresh backend => fetchRecs backend isRefresh s.1 s.2
  | TypeMood text =>
      ({| genreMood := text; stage := stage s.1; errorText := errorText s.1;
          recs := recs s.1; preferenceSummary := preferenceSummary s.1;
          batchNumber := batchNumber s.1; refreshing := refreshing s.1 |}, s.2)
  | Rate rec rating => (s.1, handleRate rec rating s.2)
  | TryAgain =>
      ({| genreMood := genreMood s.1; stage := setup; errorText := errorText s.1;
          recs := recs s.1; preferenceSummary := preferenceSummary s.1;
          batchNumber := batchNumber s.1; refreshing := refreshing s.1 |}, s.2)
  end.



(** *** Sample data for the recommender page *)

Definition persuasion : BookFields :=
  {| title := "Persuasion"; author := "Jane Austen"; rating := 4;
     shelf := "read"; genre := None; review := None; bookshelves := None;
     isbn := None; source := goodreads |}.

Definition solaris : BookFields :=
  {| title := "Solaris"; author := "Stanislaw Lem"; rating := 3;
     shelf := "read"; genre := None; review := None; bookshelves := None;
     isbn := None; source := manual |}.

(** A store with three rated books. *)
Definition rated_world : World :=
  (mergeBooks [dune; persuasion; solaris] (fresh_world sample_clock)).2.

Definition hyperion : @Recommendation Z :=
  {| rec_title := "Hyperion"; rec_author := "Dan Simmons";
     description := "Seven pilgrims."; cover_url := None;
     google_books_id := "gb-hyperion"; rec_genre := "Science Fiction";
     reason := "You liked Dune."; predicted_rating := 4%Z;
     is_new_author := true |}.

(** A backend that honours the exclusion list. *)
Definition sample_backend (req : RecommendRequest) : @FetchResult Z :=
  if bool_decide ("gb-hyperion" ∈ exclude_book_ids req)
  then HttpNotOk None
  else HttpOk {| recommendations := [hyperion]; preference_summary := "" |}.

Definition setup_state : @RecommenderState Z :=
  {| genreMood := ""; stage := setup; errorText := ""; recs := [];
     preferenceSummary := ""; batchNumber := 0; refreshing := false |}.

(** The network is down. *)
Definition offline (req : RecommendRequest) : @FetchResult Z :=
  Rejected "Failed to fetch".

(** What the reader does after the first recommendations: a mood, a rating,
    a request that fails, and another try. *)
Definition sample_events : list (@PageEvent Z) :=
  [TypeMood "space opera"; Rate hyperion 5; Fetch true offline; TryAgain].

Definition sample_page : @RecommenderState Z * World :=
  fold_left page_step sample_events
    (fetchRecs sample_backend false setup_state rated_world).
(** ** Facts about the string functions *)

Ltac each_char c := destruct c as [[] [] [] [] [] [] [] []].

Lemma isWhiteSpace_lowerChar c : Js.isWhiteSpace (Js.lowerChar c) = Js.isWhiteSpace c.
Proof. each_char c; reflexivity. Qed.

Lemma toLowerCase_app s1 s2 :
  Js.toLowerCase (s1 +:+ s2) = Js.toLowerCase s1 +:+ Js.toLowerCase s2.
Proof. induction s1 as [|c s1 IH]; simpl; [done | by rewrite IH]. Qed.

Lemma trimStart_toLowerCase s :
  Js.trimStart (Js.toLowerCase s) = Js.toLowerCase (Js.trimStart s).
Proof.
  induction s as [|c s IH]; simpl; [done|].
  rewrite isWhiteSpace_lowerChar. by destruct (Js.isWhiteSpace c).
Qed.

Lemma trimEnd_toLowerCase s :
  Js.trimEnd (Js.toLowerCase s) = Js.toLowerCase (Js.trimEnd s).
Proof.
  induction s as [|c s IH]; simpl; [done|].
  rewrite IH, isWhiteSpace_lowerChar.
  destruct (Js.trimEnd s); simpl; [by destruct (Js.isWhiteSpace c) | done].
Qed.

Lemma trim_toLowerCase s : Js.trim (Js.toLowerCase s) = Js.toLowerCase (Js.trim s).
Proof. unfold Js.trim. by rewrite trimStart_toLowerCase, trimEnd_toLowerCase. Qed.

Lemma trimStart_blank ws : Js.isBlank ws = true -> Js.trimStart ws = "".
Proof.
  induction ws as [|c ws IH]; simpl; [done|].
  intros [Hc Hws]%andb_true_iff. rewrite Hc. auto.
Qed.

Lemma trimEnd_blank ws : Js.isBlank ws = true -> Js.trimEnd ws = "".
Proof.
  induction ws as [|c ws IH]; simpl; [done|].
  intros [Hc Hws]%andb_true_iff. by rewrite IH, Hc.
Qed.

Lemma trimEnd_app_blank s ws :
  Js.isBlank ws = true -> Js.trimEnd (s +:+ ws) = Js.trimEnd s.
Proof.
  intros Hws. induction s as [|c s IH]; simpl.
  - by apply trimEnd_blank.
  - by rewrite IH.
Qed.

Lemma trim_app_blank_r s ws : Js.isBlank ws = true -> Js.trim (s +:+ ws) = Js.trim s.
Proof.
  intros Hws. unfold Js.trim. induction s as [|c s IH].
  - change ("" +:+ ws) with ws. by rewrite (trimStart_blank _ Hws).
  - change (String c s +:+ ws) with (String c (s +:+ ws)).
    cbn [Js.trimStart]. destruct (Js.isWhiteSpace c); [done|].
    change (String c (s +:+ ws)) with (String c s +:+ ws).
    by apply trimEnd_app_blank.
Qed.

Lemma trim_app_blank_l ws s : Js.isBlank ws = true -> Js.trim (ws +:+ s) = Js.trim s.
Proof.
  intros Hws. unfold Js.trim. f_equal.
  induction ws as [|c ws IH]; simpl in *; [done|].
  apply andb_true_iff in Hws as [-> Hws]. auto.
Qed.

Lemma trim_padded ws1 s ws2 :
  Js.isBlank ws1 = true -> Js.isBlank ws2 = true ->
  Js.trim (ws1 +:+ s +:+ ws2) = Js.trim s.
Proof. intros H1 H2. by rewrite trim_app_blank_l, trim_app_blank_r. Qed.

Lemma isBlank_toLowerCase s : Js.isBlank (Js.toLowerCase s) = Js.isBlank s.
Proof.
  unfold Js.isBlank. induction s as [|c s IH]; simpl; [done|].
  by rewrite isWhiteSpace_lowerChar, IH.
Qed.

Lemma upperChar_ascii c :
  (Js.code c <? 128)%N = true ->
  exists c', Js.upperChar c = Some (String c' "") /\ Js.lowerChar c' = Js.lowerChar c.
Proof. each_char c; intros H; try discriminate H; eexists; split; reflexivity. Qed.

Lemma toUpperCase_ascii s :
  Js.isAscii s = true ->
  exists u, Js.toUpperCase s = Some u /\ Js.toLowerCase u = Js.toLowerCase s.
Proof.
  unfold Js.isAscii. induction s as [|c s IH]; simpl.
  - by exists "".
  - intros [Hc Hs]%andb_true_iff.
    destruct (upperChar_ascii c Hc) as (c' & -> & Hc').
    destruct (IH Hs) as (u & -> & Hu).
    exists (String c' u). simpl. by rewrite Hc', Hu.
Qed.

Lemma makeKey_padded ws1 ws2 ws3 ws4 title author :
  Js.isBlank ws1 = true -> Js.isBlank ws2 = true ->
  Js.isBlank ws3 = true -> Js.isBlank ws4 = true ->
  makeKey (ws1 +:+ title +:+ ws2) (ws3 +:+ author +:+ ws4) = makeKey title author.
Proof.
  intros H1 H2 H3 H4. unfold makeKey.
  rewrite !toLowerCase_app, !trim_padded; by rewrite ?isBlank_toLowerCase.
Qed.

(** ** Facts about [Map] *)

Section js_map.
Context {V : Type}.
Implicit Types (m : JsMap V) (k : string) (v : V).

Lemma map_get_set_eq k v m : map_get k (map_set k v m) = Some v.
Proof.
  induction m as [|[k' v'] m IH]; simpl.
  - by rewrite String.eqb_refl.
  - destruct (String.eqb_spec k' k) as [->|Hne]; simpl.
    + by rewrite String.eqb_refl.
    + by destruct (String.eqb_spec k' k).
Qed.

Lemma map_get_set_ne k k' v m : k ≠ k' -> map_get k' (map_set k v m) = map_get k' m.
Proof.
  intros Hne. induction m as [|[k0 v0] m IH]; simpl.
  - by destruct (String.eqb_spec k k').
  - destruct (String.eqb_spec k0 k) as [->|Hk0]; simpl.
    + by destruct (String.eqb_spec k k').
    + by rewrite IH.
Qed.

Lemma map_get_None k m : map_get k m = None <-> k ∉ map_keys m.
Proof.
  unfold map_keys. induction m as [|[k' v'] m IH]; simpl.
  - split; [intros _; apply not_elem_of_nil | done].
  - rewrite not_elem_of_cons. destruct (String.eqb_spec k' k) as [->|Hne].
    + split; [done | by intros [? _]].
    + rewrite IH. split; [by split | by intros [_ ?]].
Qed.

Lemma map_get_Some_elem k v m : map_get k m = Some v -> (k, v) ∈ m.
Proof.
  induction m as [|[k' v'] m IH]; simpl; [done|].
  destruct (String.eqb_spec k' k) as [->|Hne].
  - intros [= ->]. apply list_elem_of_here.
  - intros H. apply list_elem_of_further. auto.
Qed.

Lemma map_get_is_Some k m : is_Some (map_get k m) <-> k ∈ map_keys m.
Proof.
  rewrite <- not_eq_None_Some, map_get_None.
  split; [apply dec_stable | auto].
Qed.

Lemma elem_map_get k v m : NoDup (map_keys m) -> (k, v) ∈ m -> map_get k m = Some v.
Proof.
  unfold map_keys. induction m as [|[k' v'] m IH]; simpl.
  - by intros _ ?%elem_of_nil.
  - intros [Hk' Hm]%NoDup_cons [[= -> ->]|Hin]%elem_of_cons.
    + by rewrite String.eqb_refl.
    + destruct (String.eqb_spec k' k) as [->|Hne]; [|by auto].
      destruct Hk'. apply list_elem_of_fmap. by exists (k, v).
Qed.

Lemma map_keys_set k v m :
  map_keys (map_set k v m) =
    if map_get k m is Some _ then map_keys m else map_keys m ++ [k].
Proof.
  unfold map_keys. induction m as [|[k' v'] m IH]; [done|].
  cbn [map_set map_get]. destruct (String.eqb_spec k' k) as [->|Hne]; [done|].
  rewrite !fmap_cons, IH. by destruct (map_get k m).
Qed.

Lemma map_size_set k v m :
  map_size (map_set k v m) =
    if map_get k m is Some _ then map_size m else S (map_size m).
Proof.
  unfold map_size. induction m as [|[k' v'] m IH]; simpl; [done|].
  destruct (String.eqb_spec k' k) as [->|Hne]; simpl; [done|].
  rewrite IH. by destruct (map_get k m).
Qed.

Lemma elem_of_map_keys_set k k' v m :
  k' ∈ map_keys (map_set k v m) <-> k' = k \/ k' ∈ map_keys m.
Proof.
  rewrite map_keys_set. destruct (map_get k m) eqn:Hget.
  - split; [auto|]. intros [->|?]; [|done].
    apply map_get_is_Some. by rewrite Hget.
  - rewrite elem_of_app, list_elem_of_singleton. tauto.
Qed.

Lemma map_set_NoDup k v m : NoDup (map_keys m) -> NoDup (map_keys (map_set k v m)).
Proof.
  intros Hm. rewrite map_keys_set. destruct (map_get k m) eqn:Hget; [done|].
  apply NoDup_app. split_and!; [done| |apply NoDup_singleton].
  intros x Hx ->%list_elem_of_singleton. by apply map_get_None in Hget.
Qed.

Lemma map_set_elem k v m x :
  x ∈ map_set k v m -> x = (k, v) \/ x ∈ m.
Proof.
  induction m as [|[k' v'] m IH]; simpl.
  - intros ->%list_elem_of_singleton. by left.
  - destruct (String.eqb_spec k' k) as [->|Hne].
    + intros [->|?]%elem_of_cons; [by left | right; by apply list_elem_of_further].
    + intros [->|?]%elem_of_cons; [right; apply list_elem_of_here|].
      destruct (IH H) as [->|?]; [by left | right; by apply list_elem_of_further].
Qed.

(** The map built from entries with pairwise different keys lists them as
    they came. *)
Lemma fold_map_set_NoDup (l : list (string * V)) m :
  NoDup (map_keys m ++ l.*1) ->
  fold_left (fun m kv => map_set kv.1 kv.2 m) l m = m ++ l.
Proof.
  revert m. induction l as [|[k v] l IH]; intros m Hnd; simpl.
  - by rewrite app_nil_r.
  - assert (map_set k v m = m ++ [(k, v)]) as ->.
    { apply NoDup_app in Hnd as (_ & Hdisj & _).
      assert (k ∉ map_keys m) as Hk.
      { intros Hk. apply (Hdisj _ Hk). simpl. apply list_elem_of_here. }
      clear -Hk. unfold map_keys in Hk. induction m as [|[k' v'] m IHm]; simpl; [done|].
      simpl in Hk. apply not_elem_of_cons in Hk as [Hne Hk].
      destruct (String.eqb_spec k' k); [congruence|]. by rewrite IHm. }
    rewrite IH; [by rewrite <- app_assoc|].
    unfold map_keys in *. rewrite fmap_app. simpl in *.
    by rewrite <- app_assoc.
Qed.

Lemma Map_new_NoDup (l : list (string * V)) : NoDup l.*1 -> Map_new l = l.
Proof. intros H. unfold Map_new. by rewrite fold_map_set_NoDup. Qed.

Lemma fold_map_set_keys (l : list (string * V)) m k :
  k ∈ map_keys (fold_left (fun m kv => map_set kv.1 kv.2 m) l m)
  <-> k ∈ map_keys m \/ k ∈ l.*1.
Proof.
  revert m. induction l as [|[k' v'] l IH]; intros m; simpl.
  - rewrite elem_of_nil. tauto.
  - rewrite IH, elem_of_map_keys_set, elem_of_cons. tauto.
Qed.

Lemma fold_map_set_keys_NoDup (l : list (string * V)) m :
  NoDup (map_keys m) ->
  NoDup (map_keys (fold_left (fun m kv => map_set kv.1 kv.2 m) l m)).
Proof.
  revert m. induction l as [|[k' v'] l IH]; intros m Hm; simpl; [done|].
  apply IH. by apply map_set_NoDup.
Qed.

Lemma fold_map_set_elem (l : list (string * V)) m x :
  x ∈ fold_left (fun m kv => map_set kv.1 kv.2 m) l m -> x ∈ m \/ x ∈ l.
Proof.
  revert m. induction l as [|[k' v'] l IH]; intros m; simpl; [by left|].
  intros [[->|?]%map_set_elem|?]%IH.
  - right. apply list_elem_of_here.
  - by left.
  - right. by apply list_elem_of_further.
Qed.

End js_map.

(** ** The loop of [mergeBooks] *)

Lemma merge_step_eq st b :
  merge_step st b =
    {| storeMap := map_set (keyOf b)
                     (stamped b (clock (world st) (now (world st)))) (storeMap st);
       updatedCount := if map_get (keyOf b) (storeMap st) is Some _
                       then S (updatedCount st) else updatedCount st;
       world := ticked 1 (world st) |}.
Proof. unfold merge_step, ticked, Date_toISOString. simpl. by rewrite Nat.add_1_r. Qed.

Lemma ticked_ticked n k w : ticked n (ticked k w) = ticked (k + n) w.
Proof. unfold ticked. simpl. f_equal. lia. Qed.

Lemma ticked_0 w : ticked 0 w = w.
Proof. destruct w. unfold ticked. simpl. f_equal. lia. Qed.

Lemma loop_world incoming st :
  world (fold_left merge_step incoming st) = ticked (length incoming) (world st).
Proof.
  revert st. induction incoming as [|b l IH]; intros st; simpl.
  - by rewrite ticked_0.
  - rewrite IH, merge_step_eq. simpl. by rewrite ticked_ticked.
Qed.

Lemma loop_NoDup incoming st :
  NoDup (map_keys (storeMap st)) ->
  NoDup (map_keys (storeMap (fold_left merge_step incoming st))).
Proof.
  revert st. induction incoming as [|b l IH]; intros st Hst; simpl; [done|].
  apply IH. rewrite merge_step_eq. simpl. by apply map_set_NoDup.
Qed.

Lemma map_set_keyed k e m : book_key e = k -> keyed m -> keyed (map_set k e m).
Proof.
  unfold keyed. intros He Hm. apply Forall_forall. intros x Hx.
  apply map_set_elem in Hx as [->|Hx]; [done|].
  by eapply Forall_forall in Hm.
Qed.

Lemma loop_keyed incoming st :
  keyed (storeMap st) -> keyed (storeMap (fold_left merge_step incoming st)).
Proof.
  revert st. induction incoming as [|b l IH]; intros st Hst; simpl; [done|].
  apply IH. rewrite merge_step_eq. simpl. by apply map_set_keyed.
Qed.

Lemma loop_keys incoming st k :
  k ∈ map_keys (storeMap (fold_left merge_step incoming st))
  <-> k ∈ map_keys (storeMap st) \/ k ∈ keyOf <$> incoming.
Proof.
  revert st. induction incoming as [|b l IH]; intros st; simpl.
  - rewrite elem_of_nil. tauto.
  - rewrite IH, merge_step_eq. simpl.
    rewrite elem_of_map_keys_set, elem_of_cons. tauto.
Qed.

(** A key no incoming record has keeps its entry. *)
Lemma loop_frame incoming st k :
  k ∉ keyOf <$> incoming ->
  map_get k (storeMap (fold_left merge_step incoming st)) = map_get k (storeMap st).
Proof.
  revert st. induction incoming as [|b l IH]; intros st Hk; simpl; [done|].
  simpl in Hk. apply not_elem_of_cons in Hk as [Hne Hk].
  rewrite IH by done. rewrite merge_step_eq. simpl.
  by apply map_get_set_ne.
Qed.

(** The last incoming record of a key is the one the map ends with. *)
Lemma loop_last l1 b l2 st :
  keyOf b ∉ keyOf <$> l2 ->
  map_get (keyOf b) (storeMap (fold_left merge_step (l1 ++ b :: l2) st))
  = Some (stamped b (clock (world st) (now (world st) + length l1))).
Proof.
  intros Hlast. rewrite fold_left_app. simpl.
  rewrite loop_frame by done. rewrite merge_step_eq. simpl.
  rewrite map_get_set_eq, loop_world. done.
Qed.

(** Every turn of the loop either adds a key or counts an update. *)
Lemma loop_count incoming st :
  let st' := fold_left merge_step incoming st in
  map_size (storeMap st') + updatedCount st'
  = map_size (storeMap st) + updatedCount st + length incoming.
Proof.
  revert st. induction incoming as [|b l IH]; intros st; simpl; [lia|].
  simpl in IH. rewrite IH, merge_step_eq. simpl.
  rewrite map_size_set. destruct (map_get (keyOf b) (storeMap st)); lia.
Qed.

(** When every incoming key is in the map already, every turn counts. *)
Lemma loop_all_present incoming st :
  (forall b, b ∈ incoming -> keyOf b ∈ map_keys (storeMap st)) ->
  let st' := fold_left merge_step incoming st in
  map_keys (storeMap st') = map_keys (storeMap st)
  /\ updatedCount st' = updatedCount st + length incoming.
Proof.
  revert st. induction incoming as [|b l IH]; intros st Hin; simpl; [split; [done|lia]|].
  assert (is_Some (map_get (keyOf b) (storeMap st))) as [e He].
  { apply map_get_is_Some, Hin, list_elem_of_here. }
  assert (map_keys (storeMap (merge_step st b)) = map_keys (storeMap st)) as Hkeys.
  { rewrite merge_step_eq. simpl. by rewrite map_keys_set, He. }
  destruct (IH (merge_step st b)) as [IH1 IH2].
  { intros b' Hb'. rewrite Hkeys. by apply Hin, list_elem_of_further. }
  cbv zeta in IH1, IH2. rewrite IH1, IH2, Hkeys. split; [done|].
  rewrite merge_step_eq. simpl. rewrite He. lia.
Qed.

Lemma already_present_ext p1 p2 incoming :
  (forall k, k ∈ p1 <-> k ∈ p2) ->
  already_present p1 incoming = already_present p2 incoming.
Proof.
  revert p1 p2. induction incoming as [|b l IH]; intros p1 p2 Heq; simpl; [done|].
  rewrite (IH (keyOf b :: p1) (keyOf b :: p2)).
  - destruct (decide (keyOf b ∈ p1)) as [H1|H1], (decide (keyOf b ∈ p2)) as [H2|H2];
      try done; apply Heq in H1 || apply Heq in H2; done.
  - intros k. rewrite !elem_of_cons, Heq. tauto.
Qed.

(** A turn counts exactly when its key is in the map at that turn. *)
Lemma loop_updated incoming st :
  updatedCount (fold_left merge_step incoming st)
  = updatedCount st + already_present (map_keys (storeMap st)) incoming.
Proof.
  revert st. induction incoming as [|b l IH]; intros st; simpl; [lia|].
  rewrite IH, merge_step_eq. cbn [storeMap updatedCount].
  rewrite (already_present_ext _ (keyOf b :: map_keys (storeMap st))).
  2:{ intros k. rewrite elem_of_map_keys_set, elem_of_cons. tauto. }
  destruct (map_get (keyOf b) (storeMap st)) eqn:Hget.
  - rewrite decide_True; [lia|]. apply map_get_is_Some. by rewrite Hget.
  - rewrite decide_False; [lia|]. by apply map_get_None.
Qed.

Lemma filter_iff_in {A} (P1 P2 : A -> Prop)
    `{!forall x, Decision (P1 x), !forall x, Decision (P2 x)} (l : list A) :
  (forall x, x ∈ l -> P1 x <-> P2 x) -> filter P1 l = filter P2 l.
Proof.
  induction l as [|a l IH]; intros Hiff; [done|].
  rewrite !filter_cons, IH.
  - destruct (decide (P1 a)) as [H1|H1], (decide (P2 a)) as [H2|H2]; try done;
      apply Hiff in H1 || apply Hiff in H2; try done; apply list_elem_of_here.
  - intros x Hx. by apply Hiff, list_elem_of_further.
Qed.

(** With pairwise different incoming keys, a turn counts exactly when its
    key was in the map before the loop. *)
Lemma loop_updated_NoDup incoming st :
  NoDup (keyOf <$> incoming) ->
  updatedCount (fold_left merge_step incoming st)
  = updatedCount st
    + length (filter (fun b => keyOf b ∈ map_keys (storeMap st)) incoming).
Proof.
  revert st. induction incoming as [|b l IH]; intros st Hnd; simpl; [lia|].
  simpl in Hnd. apply NoDup_cons in Hnd as [Hb Hl].
  rewrite IH by done. rewrite merge_step_eq. simpl.
  rewrite (filter_iff_in _ (fun b => keyOf b ∈ map_keys (storeMap st)) l).
  2:{ intros b' Hb'. simpl. rewrite elem_of_map_keys_set.
      split; [|by right]. intros [Heq|?]; [|done].
      destruct Hb. rewrite <- Heq. by apply list_elem_of_fmap_2. }
  rewrite filter_cons.
  destruct (map_get (keyOf b) (storeMap st)) eqn:Hget.
  - rewrite decide_True; [simpl; lia|]. apply map_get_is_Some. by rewrite Hget.
  - rewrite decide_False; [lia|]. by apply map_get_None.
Qed.

(** ** Reading back what was written *)

Lemma readStore_writeStore l w : readStore (writeStore l w) = l.
Proof. reflexivity. Qed.

(** ** The map of the stored array *)

Lemma pair_key_fst (store : list BookEntry) :
  ((fun e => (book_key e, e)) <$> store).*1 = keys_of store.
Proof. unfold keys_of. rewrite <- list_fmap_compose. done. Qed.

Lemma pair_key_snd (store : list BookEntry) :
  ((fun e => (book_key e, e)) <$> store).*2 = store.
Proof. rewrite <- list_fmap_compose. apply list_fmap_id. Qed.

Lemma store_map_keyed store : keyed (store_map store).
Proof.
  unfold keyed, store_map, Map_new. apply Forall_forall. intros x Hx.
  apply fold_map_set_elem in Hx as [Hx%elem_of_nil|Hx]; [done|].
  apply list_elem_of_fmap in Hx as (e & -> & _). done.
Qed.

Lemma store_map_NoDup store : NoDup (map_keys (store_map store)).
Proof. apply fold_map_set_keys_NoDup. apply NoDup_nil_2. Qed.

Lemma store_map_keys store k : k ∈ map_keys (store_map store) <-> k ∈ keys_of store.
Proof.
  unfold store_map, Map_new. rewrite fold_map_set_keys, pair_key_fst.
  unfold map_keys. simpl. rewrite elem_of_nil. tauto.
Qed.

Lemma store_map_id store :
  NoDup (keys_of store) -> store_map store = (fun e => (book_key e, e)) <$> store.
Proof. intros H. apply Map_new_NoDup. by rewrite pair_key_fst. Qed.

Lemma keyed_keys m : keyed m -> keys_of (map_values m) = map_keys m.
Proof.
  unfold keyed, keys_of, map_values, map_keys.
  induction 1 as [|[k e] m Hk _ IH]; [done|].
  rewrite !fmap_cons, IH. simpl in *. by rewrite Hk.
Qed.

Lemma keyed_pairs m : keyed m -> (fun e => (book_key e, e)) <$> map_values m = m.
Proof.
  unfold keyed, map_values.
  induction 1 as [|[k e] m Hk _ IH]; [done|].
  rewrite !fmap_cons, IH. simpl in *. by rewrite Hk.
Qed.

Lemma store_map_values m :
  keyed m -> NoDup (map_keys m) -> store_map (map_values m) = m.
Proof.
  intros Hk Hnd. rewrite store_map_id, keyed_pairs; [done..|].
  by rewrite keyed_keys.
Qed.

Lemma store_map_size store :
  map_size (store_map store) = size (list_to_set (keys_of store) : gset string).
Proof.
  unfold map_size. rewrite <- (length_fmap fst).
  rewrite <- (size_list_to_set (C:=gset string)) by apply store_map_NoDup.
  f_equal. apply set_eq. intros k.
  rewrite !elem_of_list_to_set. apply store_map_keys.
Qed.

Lemma elem_of_map_values (m : JsMap BookEntry) e :
  keyed m -> e ∈ map_values m -> map_get (book_key e) m = Some e \/ ~ NoDup (map_keys m).
Proof.
  intros Hk He. destruct (decide (NoDup (map_keys m))) as [Hnd|]; [left|by right].
  apply elem_map_get; [done|].
  unfold map_values in He. apply list_elem_of_fmap in He as ([k e'] & -> & Hin).
  unfold keyed in Hk. eapply Forall_forall in Hk; [|done]. simpl in *. by subst.
Qed.

Lemma map_get_values (m : JsMap BookEntry) k e :
  map_get k m = Some e -> e ∈ map_values m.
Proof.
  intros H%map_get_Some_elem. unfold map_values.
  apply list_elem_of_fmap. by exists (k, e).
Qed.

(** ** [mergeBooks] through its loop *)

Lemma mergeBooks_eq incoming w :
  mergeBooks incoming w =
    ({| total := map_size (storeMap (merge_loop incoming w));
        updated := updatedCount (merge_loop incoming w) |},
     writeStore (map_values (storeMap (merge_loop incoming w)))
       (ticked (length incoming) w)).
Proof.
  unfold mergeBooks, merge_loop, store_map.
  by rewrite loop_world.
Qed.

Lemma merge_loop_NoDup incoming w : NoDup (map_keys (storeMap (merge_loop incoming w))).
Proof. apply loop_NoDup. simpl. apply store_map_NoDup. Qed.

Lemma merge_loop_keyed incoming w : keyed (storeMap (merge_loop incoming w)).
Proof. apply loop_keyed. simpl. apply store_map_keyed. Qed.

Lemma readStore_mergeBooks incoming w :
  readStore (mergeBooks incoming w).2 = map_values (storeMap (merge_loop incoming w)).
Proof. by rewrite mergeBooks_eq. Qed.

Lemma keys_mergeBooks incoming w :
  keys_of (readStore (mergeBooks incoming w).2)
  = map_keys (storeMap (merge_loop incoming w)).
Proof. rewrite readStore_mergeBooks. apply keyed_keys, merge_loop_keyed. Qed.

Lemma mergeBooks_NoDup incoming w :
  NoDup (keys_of (readStore (mergeBooks incoming w).2)).
Proof. rewrite keys_mergeBooks. apply merge_loop_NoDup. Qed.

Lemma mergeBooks_keys incoming w k :
  k ∈ keys_of (readStore (mergeBooks incoming w).2)
  <-> k ∈ keys_of (readStore w) \/ k ∈ keyOf <$> incoming.
Proof.
  rewrite keys_mergeBooks. unfold merge_loop. rewrite loop_keys. simpl.
  by rewrite store_map_keys.
Qed.

Lemma loop_Forall (Q : BookEntry -> Prop) incoming st :
  (forall b stamp, Q (stamped b stamp)) ->
  Forall (fun kv => Q kv.2) (storeMap st) ->
  Forall (fun kv => Q kv.2) (storeMap (fold_left merge_step incoming st)).
Proof.
  intros HQ. revert st. induction incoming as [|b l IH]; intros st Hst; simpl; [done|].
  apply IH. rewrite merge_step_eq. simpl.
  apply Forall_forall. intros x Hx.
  apply map_set_elem in Hx as [->|Hx]; [apply HQ|].
  by eapply Forall_forall in Hst.
Qed.

(** A record of the merged store is a freshly stamped incoming record or a
    record of the store before. *)
Lemma mergeBooks_origin incoming w :
  Forall (fun e : BookEntry => book_key e = keyOf e \/ e ∈ readStore w)
    (readStore (mergeBooks incoming w).2).
Proof.
  rewrite readStore_mergeBooks. unfold map_values. apply Forall_fmap.
  apply (loop_Forall (fun e => book_key e = keyOf e \/ e ∈ readStore w)).
  - intros b stamp. by left.
  - simpl. apply Forall_forall. intros x Hx. right.
    apply fold_map_set_elem in Hx as [Hx%elem_of_nil|Hx]; [done|].
    apply list_elem_of_fmap in Hx as (e & -> & He). done.
Qed.

(** ** [upsertBook] *)

(** Replacing by [findIndex] on the array is [set] on the map of the array. *)
Lemma upsert_as_map_set k e (store : list BookEntry) :
  match findIndex (fun e' => (book_key e' =? k)%string) store with
  | Some i => <[i := e]> store
  | None => store ++ [e]
  end = map_values (map_set k e ((fun e => (book_key e, e)) <$> store)).
Proof.
  unfold map_values. induction store as [|a store IH]; [done|].
  cbn [findIndex map_set fmap list_fmap].
  destruct (String.eqb_spec (book_key a) k) as [Heq|Hne].
  - simpl. f_equal. symmetry. apply pair_key_snd.
  - change (list_fmap _ _ ?f ?l) with (f <$> l). rewrite fmap_cons. simpl.
    rewrite <- IH. by destruct (findIndex _ store).
Qed.

Lemma upsertBook_eq book w :
  upsertBook book w =
    writeStore
      (match findIndex (fun e => (book_key e =? keyOf book)%string) (readStore w) with
       | Some i => <[i := stamped book (clock w (now w))]> (readStore w)
       | None => readStore w ++ [stamped book (clock w (now w))]
       end) (ticked 1 w).
Proof.
  unfold upsertBook, Date_toISOString, ticked, stamped, keyOf. simpl.
  by rewrite Nat.add_1_r.
Qed.

(** On a store with one record per key, an upsert is the merge of a
    one-record list. *)
Lemma upsertBook_merge book w :
  NoDup (keys_of (readStore w)) -> upsertBook book w = (mergeBooks [book] w).2.
Proof.
  intros Hnd. rewrite upsertBook_eq, mergeBooks_eq.
  cbn [snd length]. f_equal.
  unfold merge_loop. cbn [fold_left]. rewrite merge_step_eq.
  cbn [storeMap world]. rewrite store_map_id by done. apply upsert_as_map_set.
Qed.

(** ** Counting the overwritten records *)

Lemma filter_key_cons {B} (g : B -> string) (l : list B) k ks :
  NoDup (g <$> l) -> k ∉ ks ->
  length (filter (fun b => g b ∈ k :: ks) l)
  = (if decide (k ∈ g <$> l) then 1 else 0) + length (filter (fun b => g b ∈ ks) l).
Proof.
  intros Hnd Hk. induction l as [|b l IH]; [done|].
  rewrite fmap_cons in Hnd. apply NoDup_cons in Hnd as [Hb Hl].
  rewrite !filter_cons, fmap_cons. specialize (IH Hl).
  repeat case_decide; simpl; rewrite IH; repeat case_decide;
    try lia; exfalso; rewrite ?elem_of_cons in *; intuition congruence.
Qed.

Lemma filter_key_nil {B} (g : B -> string) (l : list B) :
  filter (fun b => g b ∈ @nil string) l = [].
Proof.
  induction l as [|b l IH]; [done|].
  rewrite filter_cons, decide_False; [done|]. apply not_elem_of_nil.
Qed.

(** Two lists with pairwise different keys hit each other equally often. *)
Lemma filter_key_swap {A B} (f : A -> string) (g : B -> string) l1 l2 :
  NoDup (f <$> l1) -> NoDup (g <$> l2) ->
  length (filter (fun a => f a ∈ g <$> l2) l1)
  = length (filter (fun b => g b ∈ f <$> l1) l2).
Proof.
  intros H1 H2. induction l1 as [|a l1 IH].
  - by rewrite (filter_key_nil g).
  - rewrite fmap_cons in H1. apply NoDup_cons in H1 as [Ha H1].
    rewrite fmap_cons, filter_key_cons, filter_cons by done.
    rewrite <- IH by done.
    destruct (decide (f a ∈ g <$> l2)); simpl; lia.
Qed.

(** * The claims *)

(** ** The record store *)

(** C1 (as amended).  For every input list and every prior store,
    [mergeBooks] leaves one record per identity key; the last input record
    of each key stands under its computed key, with all its fields and the
    clock reading of its turn, whether the key was there before or not; the
    returned total is the number of stored records; the returned count is
    the number of input records whose key was present when their turn came,
    so that every input record either added a key or was counted; when the
    input keys are pairwise different (and the store holds one record per
    key) the count is the number of pre-existing records overwritten; and on
    such a store [upsertBook] is the merge of a one-record list. *)
Theorem mergeBooks_replaces_by_key (incoming : list BookFields) (w : World) :
  let store := readStore w in
  let result := (mergeBooks incoming w).1 in
  let store' := readStore (mergeBooks incoming w).2 in
  NoDup (keys_of store')
  /\ (forall l1 b l2,
        incoming = l1 ++ b :: l2 -> keyOf b ∉ keyOf <$> l2 ->
        stamped b (clock w (now w + length l1)) ∈ store'
        /\ forall e, e ∈ store' -> book_key e = keyOf b ->
             e = stamped b (clock w (now w + length l1)))
  /\ total result = length store'
  /\ updated result = already_present (keys_of store) incoming
  /\ total result + updated result
     = size (list_to_set (keys_of store) : gset string) + length incoming
  /\ (NoDup (keyOf <$> incoming) -> NoDup (keys_of store) ->
      updated result = length (overwritten store incoming))
  /\ (forall book,
        NoDup (keys_of store) -> upsertBook book w = (mergeBooks [book] w).2).
Proof.
  cbv zeta. split_and!.
  - apply mergeBooks_NoDup.
  - intros l1 b l2 -> Hlast.
    assert (map_get (keyOf b) (storeMap (merge_loop (l1 ++ b :: l2) w))
            = Some (stamped b (clock w (now w + length l1)))) as Hget.
    { unfold merge_loop. by rewrite loop_last. }
    rewrite readStore_mergeBooks. split.
    + by eapply map_get_values.
    + intros e He Hk.
      destruct (elem_of_map_values _ _ (merge_loop_keyed _ w) He) as [Hget'|Hdup].
      * rewrite Hk, Hget in Hget'. congruence.
      * destruct Hdup. apply merge_loop_NoDup.
  - rewrite mergeBooks_eq. cbn [fst snd total]. rewrite readStore_writeStore.
    unfold map_size, map_values. by rewrite length_fmap.
  - rewrite mergeBooks_eq. cbn [fst updated]. unfold merge_loop.
    rewrite loop_updated. cbn [storeMap updatedCount].
    apply already_present_ext, store_map_keys.
  - rewrite mergeBooks_eq. simpl. unfold merge_loop.
    rewrite (loop_count incoming). simpl. rewrite store_map_size. lia.
  - intros Hin Hst. rewrite mergeBooks_eq. simpl. unfold merge_loop.
    rewrite loop_updated_NoDup by done. simpl.
    rewrite (filter_iff_in _ (fun b => keyOf b ∈ book_key <$> readStore w)).
    2:{ intros b _. apply store_map_keys. }
    unfold overwritten. by apply filter_key_swap.
  - intros book Hst. by apply upsertBook_merge.
Qed.

(** C1, worked example: after an import of Dune and Emma, the manual upsert
    of Dune replaces the imported record in full, in its place, and is the
    merge of the one-record list. *)
Lemma mergeBooks_replaces_by_key_example :
  readStore (upsertBook dune_manual sample_world)
  = [stamped dune_manual (sample_clock 2); stamped emma (sample_clock 1)]
  /\ upsertBook dune_manual sample_world = (mergeBooks [dune_manual] sample_world).2.
Proof.
  split; [reflexivity|].
  apply (mergeBooks_replaces_by_key [] sample_world).
  apply (bool_decide_unpack _). vm_compute. exact I.
Defined.

(** C1 as stated fails on an input that carries a key twice.  Merged into an
    empty store, two records of the same book give [updated = 1] although no
    record existed before the call; merged into a store that holds the book,
    they give [updated = 2] although one record was overwritten. *)
Lemma mergeBooks_counts_repeated_keys :
  readStore (fresh_world sample_clock) = []
  /\ (mergeBooks [dune; dune] (fresh_world sample_clock)).1
     = {| total := 1; updated := 1 |}
  /\ length (overwritten (readStore sample_world) [dune; dune]) = 1
  /\ (mergeBooks [dune; dune] sample_world).1 = {| total := 2; updated := 2 |}.
Proof. by vm_compute. Qed.

(** The invariant of the data model holds in every reachable store. *)
Lemma reachable_invariant w :
  reachable w ->
  NoDup (keys_of (readStore w))
  /\ Forall (fun e : BookEntry => book_key e = keyOf e) (readStore w).
Proof.
  assert (forall incoming w0,
    Forall (fun e : BookEntry => book_key e = keyOf e) (readStore w0) ->
    Forall (fun e : BookEntry => book_key e = keyOf e)
      (readStore (mergeBooks incoming w0).2)) as Hmerge.
  { intros incoming w0 Hw0. eapply Forall_impl; [apply mergeBooks_origin|].
    intros e [?|He]; [done|]. by eapply Forall_forall in Hw0. }
  induction 1 as [w Hempty|incoming w _ [IHn IHk]|book w _ [IHn IHk]].
  - rewrite Hempty. split; [apply NoDup_nil_2 | constructor].
  - split; [apply mergeBooks_NoDup | by apply Hmerge].
  - rewrite upsertBook_merge by done.
    split; [apply mergeBooks_NoDup | by apply Hmerge].
Qed.

(** C2.  In every store state reached from the empty store by any sequence
    of [mergeBooks] and [upsertBook] there is exactly one record per
    identity key, and the key of each stored record is the key derived from
    its own title and author. *)
Theorem reachable_one_record_per_key (w : World) :
  reachable w ->
  NoDup (book_key <$> readStore w)
  /\ forall e : BookEntry, e ∈ readStore w -> book_key e = makeKey (title e) (author e).
Proof.
  intros [Hn Hk]%reachable_invariant. split; [done|].
  intros e He. by eapply Forall_forall in Hk.
Qed.

(** C2, worked example: an import followed by a manual upsert. *)
Lemma reachable_one_record_per_key_example :
  (book_key <$> readStore (upsertBook dune_manual sample_world))
  = ["dune::frank herbert"; "emma::jane austen"]
  /\ NoDup (book_key <$> readStore (upsertBook dune_manual sample_world)).
Proof.
  split; [reflexivity|].
  apply (reachable_one_record_per_key (upsertBook dune_manual sample_world)).
  apply reach_upsert, reach_merge, reach_empty. reflexivity.
Defined.

(** C3.  For every input list and every store, a second [mergeBooks] of the
    same list returns the total of the first call and counts every input
    record as updated. *)
Theorem mergeBooks_twice (incoming : list BookFields) (w : World) :
  let first := mergeBooks incoming w in
  let second := mergeBooks incoming first.2 in
  total second.1 = total first.1 /\ updated second.1 = length incoming.
Proof.
  cbv zeta. set (w1 := (mergeBooks incoming w).2).
  assert (store_map (readStore w1) = storeMap (merge_loop incoming w)) as Hmap.
  { unfold w1. rewrite readStore_mergeBooks.
    apply store_map_values; [apply merge_loop_keyed | apply merge_loop_NoDup]. }
  destruct (loop_all_present incoming
              {| storeMap := storeMap (merge_loop incoming w);
                 updatedCount := 0; world := w1 |}) as [Hkeys Hupd].
  { intros b Hb. cbn [storeMap]. unfold merge_loop. apply loop_keys.
    right. by apply list_elem_of_fmap_2. }
  cbv zeta in Hkeys, Hupd. cbn [storeMap updatedCount] in Hkeys, Hupd.
  rewrite (mergeBooks_eq incoming w1), (mergeBooks_eq incoming w).
  cbn [fst total updated]. unfold merge_loop at 1 3. rewrite Hmap, Hupd.
  split; [|done].
  unfold map_size. rewrite <- !(length_fmap fst).
  unfold map_keys in Hkeys. by rewrite Hkeys.
Qed.

(** C10 (as amended).  For every store and every input list the keys after
    [mergeBooks] are the keys before together with the keys of the input, so
    no key is ever lost; and in a store of the data model (one record per key, as in
    every reachable state) a stored record whose key no input record has is
    still stored afterwards, with every field as it was, and is the only
    record of its key. *)
Theorem mergeBooks_frame (incoming : list BookFields) (w : World) :
  let store' := readStore (mergeBooks incoming w).2 in
  (list_to_set (keys_of store') : gset string)
  = list_to_set (keys_of (readStore w)) ∪ list_to_set (keyOf <$> incoming)
  /\ (NoDup (keys_of (readStore w)) ->
      forall e : BookEntry,
        e ∈ readStore w -> book_key e ∉ keyOf <$> incoming ->
        e ∈ store'
        /\ forall e' : BookEntry, e' ∈ store' -> book_key e' = book_key e -> e' = e).
Proof.
  cbv zeta. split.
  - apply set_eq. intros k.
    rewrite elem_of_union, !elem_of_list_to_set. apply mergeBooks_keys.
  - intros Hnd e He Hkey.
    assert (map_get (book_key e) (storeMap (merge_loop incoming w)) = Some e) as Hget.
    { unfold merge_loop. rewrite loop_frame by done. cbn [storeMap].
      rewrite store_map_id by done. apply elem_map_get.
      - unfold map_keys. by rewrite pair_key_fst.
      - apply list_elem_of_fmap. by exists e. }
    rewrite readStore_mergeBooks. split; [by eapply map_get_values|].
    intros e' He' Hk'.
    destruct (elem_of_map_values _ _ (merge_loop_keyed _ w) He') as [Hget'|Hdup].
    + rewrite Hk', Hget in Hget'. congruence.
    + destruct Hdup. apply merge_loop_NoDup.
Qed.

(** C10, worked example: merging a new rating of Dune leaves the record of
    Emma as it was. *)
Lemma mergeBooks_frame_example :
  stamped emma (sample_clock 1) ∈ readStore (mergeBooks [dune_manual] sample_world).2.
Proof.
  apply (proj2 (mergeBooks_frame [dune_manual] sample_world)).
  - apply (bool_decide_unpack _). vm_compute. exact I.
  - apply list_elem_of_further, list_elem_of_here.
  - vm_compute. intros [?|[]%elem_of_nil]%elem_of_cons. discriminate.
Defined.

(** C10 as stated fails on a store that holds two records under one key:
    a merge of no record at all keeps only the later of the two, so the
    earlier one, whose key no input record has, is deleted. *)
Lemma mergeBooks_drops_repeated_key :
  readStore twice_stored
  = [stamped dune (sample_clock 0); stamped dune_manual (sample_clock 1)]
  /\ readStore (mergeBooks [] twice_stored).2
     = [stamped dune_manual (sample_clock 1)].
Proof. by split. Qed.

(** ** The identity key *)

(** C4 (as amended).  For all titles and authors the key is the lower-cased
    trimmed title, two colons and the lower-cased trimmed author; the
    adapter's copy of the function computes the same key; white space added
    in front of or behind the title or the author does not change it; and
    upper-casing the title does not change it when lower-casing undoes the
    upper-casing, as it does for every ASCII title. *)
Theorem makeKey_normalizes (title author : string) :
  makeKey title author = identityKey_spec title author
  /\ CsvParser.makeKey title author = makeKey title author
  /\ (forall ws1 ws2 ws3 ws4,
        Js.isBlank ws1 = true -> Js.isBlank ws2 = true ->
        Js.isBlank ws3 = true -> Js.isBlank ws4 = true ->
        makeKey (ws1 +:+ title +:+ ws2) (ws3 +:+ author +:+ ws4)
        = makeKey title author)
  /\ (forall upper,
        Js.toUpperCase title = Some upper ->
        Js.toLowerCase upper = Js.toLowerCase title ->
        makeKey upper author = makeKey title author)
  /\ (Js.isAscii title = true ->
      exists upper,
        Js.toUpperCase title = Some upper
        /\ makeKey upper author = makeKey title author).
Proof.
  split_and!.
  - unfold makeKey, identityKey_spec. by rewrite !trim_toLowerCase.
  - reflexivity.
  - intros. by apply makeKey_padded.
  - intros upper _ Hlow. unfold makeKey. by rewrite Hlow.
  - intros (upper & Hup & Hlow)%toUpperCase_ascii.
    exists upper. split; [done|]. unfold makeKey. by rewrite Hlow.
Qed.

(** C4, worked example. *)
Lemma makeKey_normalizes_example :
  makeKey "  DUNE " "Frank Herbert" = "dune::frank herbert"
  /\ exists upper,
       Js.toUpperCase "Dune" = Some upper
       /\ makeKey upper "Frank Herbert" = makeKey "Dune" "Frank Herbert".
Proof.
  split; [reflexivity|].
  apply (makeKey_normalizes "Dune" "Frank Herbert"). reflexivity.
Defined.

(** C4 as stated fails at the title made of the one letter U+00DF: its upper
    case is SS, whose key starts with ss, while the key of the title itself
    keeps the sharp s. *)
Lemma makeKey_upper_sharp_s :
  Js.toUpperCase sharp_s = Some "SS"
  /\ makeKey "SS" "Frank Herbert" = "ss::frank herbert"
  /\ makeKey sharp_s "Frank Herbert" = sharp_s +:+ "::frank herbert"
  /\ makeKey "SS" "Frank Herbert" <> makeKey sharp_s "Frank Herbert".
Proof. split_and!; [reflexivity..|discriminate]. Qed.

(** ** The shown-set tracker *)

Lemma elem_of_set_add s x y : x ∈ set_add s y <-> x ∈ s \/ x = y.
Proof.
  unfold set_add. case_decide.
  - split; [by left|]. by intros [?| ->].
  - by rewrite elem_of_app, list_elem_of_singleton.
Qed.

Lemma set_add_NoDup s y : NoDup s -> NoDup (set_add s y).
Proof.
  intros Hs. unfold set_add. case_decide; [done|].
  apply NoDup_app. split_and!; [done| |apply NoDup_singleton].
  by intros x Hx ->%list_elem_of_singleton.
Qed.

Lemma fold_set_add_elem l s x : x ∈ fold_left set_add l s <-> x ∈ s \/ x ∈ l.
Proof.
  revert s. induction l as [|y l IH]; intros s; simpl.
  - rewrite elem_of_nil. tauto.
  - rewrite IH, elem_of_set_add, elem_of_cons. tauto.
Qed.

Lemma fold_set_add_NoDup l s : NoDup s -> NoDup (fold_left set_add l s).
Proof.
  revert s. induction l as [|y l IH]; intros s Hs; simpl; [done|].
  by apply IH, set_add_NoDup.
Qed.

Lemma getShown_addShown ids w :
  getShownBookIds (addShownBookIds ids w) = Set_new (getShownBookIds w ++ ids).
Proof. reflexivity. Qed.

Lemma addShown_keeps ids w x :
  x ∈ getShownBookIds w -> x ∈ getShownBookIds (addShownBookIds ids w).
Proof.
  intros Hx. rewrite getShown_addShown. unfold Set_new.
  apply fold_set_add_elem. right. apply elem_of_app. by left.
Qed.

(** C8.  [addShownBookIds] stores the union of the shown set and its
    argument, without repeats; what is in the shown set stays in it through
    any sequence of [addShownBookIds] calls, until [clearShownBookIds]
    empties it; and x, y followed by y, z leaves exactly x, y and z. *)
Theorem addShownBookIds_union (ids : list string) (w : World) :
  let shown' := getShownBookIds (addShownBookIds ids w) in
  NoDup shown'
  /\ (list_to_set shown' : gset string)
     = list_to_set (getShownBookIds w) ∪ list_to_set ids
  /\ (forall batches x,
        x ∈ getShownBookIds w ->
        x ∈ getShownBookIds
              (fold_left (fun w ids => addShownBookIds ids w) batches w))
  /\ getShownBookIds (clearShownBookIds w) = []
  /\ (getShownBookIds w = [] ->
      getShownBookIds (addShownBookIds ["y"; "z"] (addShownBookIds ["x"; "y"] w))
      = ["x"; "y"; "z"]).
Proof.
  cbv zeta. split_and!.
  - rewrite getShown_addShown. apply fold_set_add_NoDup, NoDup_nil_2.
  - apply set_eq. intros x.
    rewrite elem_of_union, !elem_of_list_to_set, getShown_addShown.
    unfold Set_new. rewrite fold_set_add_elem, elem_of_app, elem_of_nil. tauto.
  - intros batches. revert w.
    induction batches as [|b l IH]; intros w x Hx; simpl; [done|].
    by apply IH, addShown_keeps.
  - reflexivity.
  - intros Hempty. rewrite !getShown_addShown, Hempty. reflexivity.
Qed.

(** C8, worked example, from a profile that has shown nothing yet. *)
Lemma addShownBookIds_union_example :
  getShownBookIds
    (addShownBookIds ["y"; "z"]
       (addShownBookIds ["x"; "y"] (fresh_world sample_clock)))
  = ["x"; "y"; "z"].
Proof.
  apply (addShownBookIds_union [] (fresh_world sample_clock)). reflexivity.
Defined.

(** ** Reading *)








(** C9.  For every store state, [getRatedBooks] returns the stored records
    with a rating of at least 1, in their stored order, whatever their
    shelf, and the empty list when no stored record has such a rating. *)
Theorem getRatedBooks_exact (w : World) :
  (forall e : BookEntry,
     e ∈ getRatedBooks w <-> e ∈ getAllBooks w /\ (1 <= rating e)%Z)
  /\ getRatedBooks w `sublist_of` getAllBooks w
  /\ ((forall e : BookEntry, e ∈ getAllBooks w -> ~ (1 <= rating e)%Z) ->
      getRatedBooks w = [])
  /\ (forall (shelf_of : BookEntry -> string),
        getRatedBooks (writeStore ((fun e => set_shelf (shelf_of e) e) <$> getAllBooks w) w)
        = (fun e => set_shelf (shelf_of e) e) <$> getRatedBooks w).
Proof.
  unfold getRatedBooks, getAllBooks. split_and!.
  - intros e. rewrite list_elem_of_filter. tauto.
  - apply sublist_filter.
  - intros Hnone. induction (readStore w) as [|a l IH]; [done|].
    rewrite filter_cons_False.
    + apply IH. intros e He. by apply Hnone, list_elem_of_further.
    + apply Hnone, list_elem_of_here.
  - intros shelf_of. rewrite readStore_writeStore.
    induction (readStore w) as [|a l IH]; [done|].
    rewrite fmap_cons, !filter_cons. simpl.
    destruct (decide (1 <= rating a)%Z); by rewrite IH.
Qed.

(** C9, worked example: of Dune (rated 5) and Emma (unrated) only Dune is
    returned; a store holding Emma alone gives the empty list. *)
Lemma getRatedBooks_exact_example :
  getRatedBooks sample_world = [stamped dune (sample_clock 0)]
  /\ getRatedBooks (upsertBook emma (fresh_world sample_clock)) = [].
Proof.
  split; [reflexivity|].
  apply (getRatedBooks_exact (upsertBook emma (fresh_world sample_clock))).
  intros e [->|[]%elem_of_nil]%elem_of_cons. vm_compute. done.
Defined.

(** ** The CSV import adapter *)

Lemma trimEnd_empty s : Js.trimEnd s = "" -> Js.isBlank s = true.
Proof.
  unfold Js.isBlank. induction s as [|c s IH]; simpl; [done|].
  destruct (Js.trimEnd s); [|done].
  destruct (Js.isWhiteSpace c); [|done]. intros _. by apply IH.
Qed.

Lemma isBlank_trimStart s : Js.isBlank (Js.trimStart s) = Js.isBlank s.
Proof.
  unfold Js.isBlank. induction s as [|c s IH]; simpl; [done|].
  destruct (Js.isWhiteSpace c) eqn:Hc; simpl; [done|]. by rewrite Hc.
Qed.

Lemma truthy_trim s : Js.truthy (Js.trim s) = negb (Js.isBlank s).
Proof.
  destruct (Js.isBlank s) eqn:Hs; simpl.
  - unfold Js.trim. by rewrite (trimStart_blank s Hs).
  - destruct (Js.trim s) eqn:Ht; [|done].
    apply trimEnd_empty in Ht. rewrite isBlank_trimStart in Ht. congruence.
Qed.

Lemma has_title_blank row : CsvParser.has_title row = negb (blank_title row).
Proof.
  unfold CsvParser.has_title, CsvParser.cell_trim, blank_title.
  destruct (row !! "Title") as [t|]; simpl; [apply truthy_trim | done].
Qed.

Lemma filter_has_title (rows : list (gmap string string)) :
  List.filter CsvParser.has_title rows
  = filter (fun row => blank_title row = false) rows.
Proof.
  induction rows as [|row rows IH]; [done|].
  rewrite filter_cons. simpl. rewrite has_title_blank, IH.
  by destruct (blank_title row).
Qed.

Lemma row_to_entry_eq row w :
  CsvParser.row_to_entry row w
  = ((CsvParser.row_to_entry row w).1, ticked 1 w)
    /\ date_updated (CsvParser.row_to_entry row w).1 = clock w (now w)
    /\ book_key (CsvParser.row_to_entry row w).1
       = keyOf (CsvParser.row_to_entry row w).1.
Proof.
  unfold CsvParser.row_to_entry, Date_toISOString, ticked. simpl.
  by rewrite Nat.add_1_r.
Qed.

Lemma map_rows_eq rows w :
  CsvParser.map_rows rows w
  = (imap (fun i row => (CsvParser.row_to_entry row (ticked i w)).1) rows,
     ticked (length rows) w).
Proof.
  revert w. induction rows as [|row rows IH]; intros w.
  - simpl. by rewrite ticked_0.
  - cbn [CsvParser.map_rows]. destruct (row_to_entry_eq row w) as (-> & _ & _).
    rewrite IH, (ticked_ticked (length rows) 1 w). cbn [imap length].
    rewrite ticked_0. f_equal. f_equal. apply imap_ext. intros i r _.
    cbn [compose]. by rewrite (ticked_ticked i 1 w).
Qed.

Lemma missing_nonempty (row : gmap string string) cols :
  filter (fun col => row !! col = None) cols <> []
  <-> exists col, col ∈ cols /\ row !! col = None.
Proof.
  split.
  - destruct (filter _ cols) as [|col l] eqn:Hf; [done|]. intros _.
    assert (col ∈ filter (fun col => row !! col = None) cols) as Hin.
    { rewrite Hf. apply list_elem_of_here. }
    apply list_elem_of_filter in Hin as [? ?]. by exists col.
  - intros (col & Hin & Hnone) Hf.
    assert (col ∈ filter (fun col => row !! col = None) cols) as Hin'.
    { by apply list_elem_of_filter. }
    rewrite Hf in Hin'. by apply elem_of_nil in Hin'.
Qed.

(** The settlement of the promise on a parsed table, case by case. *)
Lemma parseGoodreadsCSV_complete rows w :
  CsvParser.parseGoodreadsCSV (CsvParser.PapaComplete rows) w =
    match rows with
    | [] => (inl CsvParser.EmptyInput, w)
    | firstRow :: _ =>
        match filter (fun col => firstRow !! col = None) CsvParser.required with
        | [] =>
            let kept := filter (fun row => blank_title row = false) rows in
            (inr (imap (fun i row => (CsvParser.row_to_entry row (ticked i w)).1)
                    kept),
             ticked (length kept) w)
        | missing => (inl (CsvParser.SchemaMismatch missing), w)
        end
    end.
Proof.
  unfold CsvParser.parseGoodreadsCSV. destruct rows as [|firstRow rest]; [done|].
  destruct (filter _ CsvParser.required) as [|col missing] eqn:Hf.
  - rewrite bool_decide_false by (simpl; lia).
    by rewrite map_rows_eq, filter_has_title.
  - by rewrite bool_decide_true by (simpl; lia).
Qed.

(** C5.  For every parsed table: the import fails with [EmptyInput] exactly
    when the table has no data row; it fails with [SchemaMismatch] exactly
    when a required column is absent from the first row, and then names the
    absent required columns, which its message lists; it never reports a
    parse failure of its own; and otherwise it succeeds with the records of
    the rows whose title is not blank, each mapped as [row_to_entry] maps
    it, in their order. *)
Theorem parseGoodreadsCSV_outcomes (rows : list (gmap string string)) (w : World) :
  let result := (CsvParser.parseGoodreadsCSV (CsvParser.PapaComplete rows) w).1 in
  (result = inl CsvParser.EmptyInput <-> rows = [])
  /\ (forall missing,
        result = inl (CsvParser.SchemaMismatch missing) <->
        exists firstRow rest,
          rows = firstRow :: rest
          /\ missing = filter (fun col => firstRow !! col = None) CsvParser.required
          /\ exists col, col ∈ CsvParser.required /\ firstRow !! col = None)
  /\ (forall missing,
        CsvParser.error_message (CsvParser.SchemaMismatch missing)
        = "This doesn't look like a Goodreads export. Missing columns: "
          +:+ String.concat ", " missing)
  /\ (forall message, result <> inl (CsvParser.ParseFailure message))
  /\ (forall books,
        result = inr books <->
        (exists firstRow rest,
            rows = firstRow :: rest
            /\ forall col, col ∈ CsvParser.required -> is_Some (firstRow !! col))
        /\ books = imap (fun i row => (CsvParser.row_to_entry row (ticked i w)).1)
                     (filter (fun row => blank_title row = false) rows)).
Proof.
  cbv zeta. rewrite parseGoodreadsCSV_complete.
  destruct rows as [|firstRow rest].
  { split_and!; [done| |done|done|].
    - intros missing. split; [done|]. by intros (? & ? & ? & _).
    - intros books. split; [done|]. by intros [(? & ? & ? & _) _]. }
  pose proof (missing_nonempty firstRow CsvParser.required) as Hmiss.
  destruct (filter _ CsvParser.required) as [|col missing] eqn:Hf; cbn [fst].
  - assert (forall col, col ∈ CsvParser.required -> is_Some (firstRow !! col)) as Hall.
    { intros col Hcol. destruct (firstRow !! col) eqn:Hc; [done|].
      destruct (proj2 Hmiss); [by exists col | done]. }
    split_and!; [done| |done|done|].
    + intros missing. split; [done|].
      intros (? & ? & [= <- <-] & _ & Hex). by apply Hmiss in Hex.
    + intros books. split.
      * intros [= <-]. split; [by exists firstRow, rest | done].
      * by intros [_ ->].
  - split_and!; [done| |done|done|].
    + intros missing'. split.
      * intros [= <-]. exists firstRow, rest. split_and!; [done..|].
        by apply Hmiss.
      * intros (? & ? & [= <- <-] & Hm & _). by rewrite Hm, Hf.
    + intros books. split; [done|].
      intros [(? & ? & [= <- <-] & Hall) _].
      destruct (proj1 Hmiss) as (c & Hc & Hnone); [done|].
      destruct (Hall c Hc) as [? ?]. congruence.
Qed.

(** C5, worked examples: no data row; a first row without Author; a blank
    title next to a proper row. *)
Lemma parseGoodreadsCSV_outcomes_example :
  (CsvParser.parseGoodreadsCSV (CsvParser.PapaComplete [])
     (fresh_world sample_clock)).1 = inl CsvParser.EmptyInput
  /\ (CsvParser.parseGoodreadsCSV (CsvParser.PapaComplete [dune_row_no_author])
        (fresh_world sample_clock)).1 = inl (CsvParser.SchemaMismatch ["Author"])
  /\ CsvParser.error_message (CsvParser.SchemaMismatch ["Author"])
     = "This doesn't look like a Goodreads export. Missing columns: Author"
  /\ (CsvParser.parseGoodreadsCSV (CsvParser.PapaComplete [dune_row; blank_row])
        (fresh_world sample_clock)).1
     = inr [{| book_key := "dune::frank herbert"; fields := dune;
               date_updated := sample_clock 0 |}].
Proof.
  split_and!; [|vm_compute; reflexivity..].
  by apply (parseGoodreadsCSV_outcomes [] (fresh_world sample_clock)).
Defined.

(** A merge stores the last incoming record of each key. *)
Lemma mergeBooks_last l1 b l2 w :
  keyOf b ∉ keyOf <$> l2 ->
  stamped b (clock w (now w + length l1))
  ∈ readStore (mergeBooks (l1 ++ b :: l2) w).2.
Proof.
  intros Hlast. rewrite readStore_mergeBooks.
  apply (map_get_values _ (keyOf b)). unfold merge_loop. by rewrite loop_last.
Qed.

Lemma handleCsvUpload_world file w :
  (handleCsvUpload file w).2 =
    match (CsvParser.parseGoodreadsCSV file w).1 with
    | inr books =>
        (mergeBooks (fields <$> books) (CsvParser.parseGoodreadsCSV file w).2).2
    | inl _ => (CsvParser.parseGoodreadsCSV file w).2
    end.
Proof.
  unfold handleCsvUpload.
  destruct (CsvParser.parseGoodreadsCSV file w) as [[e|books] w1]; [done|].
  cbn [fst snd]. by destruct (mergeBooks _ w1).
Qed.

(** C6 (as amended).  Every record of a successful import already carries
    its identity key, the key of its own title and author, and the clock
    reading taken when its row was mapped; the record store computes the key
    again and stamps a later clock reading when the records are merged. *)
Theorem parsed_records_are_keyed
    (file : CsvParser.PapaResult) (w : World) (books : list BookEntry) :
  (CsvParser.parseGoodreadsCSV file w).1 = inr books ->
  (forall i (e : BookEntry),
     books !! i = Some e ->
     book_key e = makeKey (title e) (author e)
     /\ date_updated e = clock w (now w + i))
  /\ (forall l1 (e : BookEntry) l2,
        books = l1 ++ e :: l2 ->
        keyOf e ∉ keyOf <$> (fields <$> l2) ->
        stamped e (clock w (now w + length books + length l1))
        ∈ readStore (handleCsvUpload file w).2).
Proof.
  destruct file as [rows|message]; [|done].
  rewrite (handleCsvUpload_world (CsvParser.PapaComplete rows) w).
  rewrite parseGoodreadsCSV_complete.
  destruct rows as [|firstRow rest]; [done|].
  destruct (filter _ CsvParser.required) as [|col missing]; [|done].
  cbv zeta. cbn [fst snd]. set (kept := filter _ (firstRow :: rest)).
  set (parsed := imap _ kept).
  assert (length parsed = length kept) as Hlen by apply length_imap.
  intros Hbooks. assert (books = parsed) as -> by congruence. split.
  - intros i e Hi. apply list_lookup_imap_Some in Hi as (row & _ & ->).
    by split.
  - intros l1 e l2 Hsplit Hlast. rewrite Hlen, Hsplit, fmap_app, fmap_cons.
    pose proof (mergeBooks_last (fields <$> l1) e (fields <$> l2)
                  (ticked (length kept) w) Hlast) as Hin.
    by rewrite length_fmap in Hin.
Qed.

(** C6, worked example: the adapter stamps the first clock reading, the
    store the second. *)
Lemma parsed_records_are_keyed_example :
  book_key (stamped dune (sample_clock 0)) = "dune::frank herbert"
  /\ stamped dune (sample_clock 1)
     ∈ readStore (handleCsvUpload (CsvParser.PapaComplete [dune_row])
                    (fresh_world sample_clock)).2.
Proof.
  split; [reflexivity|].
  apply (proj2 (parsed_records_are_keyed (CsvParser.PapaComplete [dune_row])
                  (fresh_world sample_clock) [stamped dune (sample_clock 0)]
                  eq_refl) [] (stamped dune (sample_clock 0)) []).
  - reflexivity.
  - apply not_elem_of_nil.
Defined.

(** C6 as stated fails on a one-row export: the record the adapter produces
    has both fields populated, the identity key with the computed key and
    the date with the clock reading. *)
Lemma parsed_record_is_keyed :
  (CsvParser.parseGoodreadsCSV (CsvParser.PapaComplete [dune_row])
     (fresh_world sample_clock)).1
  = inr [{| book_key := "dune::frank herbert"; fields := dune;
            date_updated := "2024-05-01T10:00:00.000Z" |}].
Proof. vm_compute. reflexivity. Qed.

(** ** The scenario of the specification

    Importing the one-row export stores one record under the key of Dune,
    rated 5 and tagged goodreads; a manual upsert of the same book then
    leaves one record, rated 4 and tagged manual. *)
Example import_then_manual_upsert :
  let imported := (handleCsvUpload (CsvParser.PapaComplete [dune_row])
                     (fresh_world sample_clock)).2 in
  readStore imported = [stamped dune (sample_clock 1)]
  /\ book_key (stamped dune (sample_clock 1)) = "dune::frank herbert"
  /\ readStore (upsertBook dune_manual imported)
     = [stamped dune_manual (sample_clock 2)]
  /\ getBookCount (upsertBook dune_manual imported) = 1.
Proof. by vm_compute. Qed.

(** * Further properties of the code *)

(** ** Order of the stored records *)

Lemma map_keys_set_add {V} k (v : V) (m : JsMap V) :
  map_keys (map_set k v m) = set_add (map_keys m) k.
Proof.
  rewrite map_keys_set. unfold set_add.
  destruct (map_get k m) eqn:Hget.
  - rewrite decide_True; [done|]. apply map_get_is_Some. by rewrite Hget.
  - rewrite decide_False; [done|]. by apply map_get_None.
Qed.

Lemma fold_map_set_key_order {V} (l : list (string * V)) (m : JsMap V) :
  map_keys (fold_left (fun m kv => map_set kv.1 kv.2 m) l m)
  = fold_left set_add l.*1 (map_keys m).
Proof.
  revert m. induction l as [|[k v] l IH]; intros m; [done|].
  rewrite fmap_cons. cbn [fold_left fst snd]. by rewrite IH, map_keys_set_add.
Qed.

Lemma loop_key_order incoming st :
  map_keys (storeMap (fold_left merge_step incoming st))
  = fold_left set_add (keyOf <$> incoming) (map_keys (storeMap st)).
Proof.
  revert st. induction incoming as [|b l IH]; intros st; [done|].
  rewrite fmap_cons. cbn [fold_left]. rewrite IH, merge_step_eq.
  cbn [storeMap]. by rewrite map_keys_set_add.
Qed.

Lemma fold_set_add_prefix l s : s `prefix_of` fold_left set_add l s.
Proof.
  revert s. induction l as [|x l IH]; intros s; [done|]. cbn [fold_left].
  etrans; [|apply IH]. unfold set_add. case_decide; [done|].
  by apply prefix_app_r.
Qed.

Lemma fold_set_add_absorb l s :
  (forall x, x ∈ l -> x ∈ s) -> fold_left set_add l s = s.
Proof.
  induction l as [|x l IH]; intros Hin; [done|]. cbn [fold_left].
  unfold set_add at 2. rewrite decide_True by apply Hin, list_elem_of_here.
  apply IH. intros y Hy. by apply Hin, list_elem_of_further.
Qed.

Lemma fold_set_add_fresh l s : NoDup (s ++ l) -> fold_left set_add l s = s ++ l.
Proof.
  revert s. induction l as [|x l IH]; intros s Hnd; cbn [fold_left].
  - by rewrite app_nil_r.
  - assert (x ∉ s) as Hx.
    { apply NoDup_app in Hnd as (_ & Hdisj & _). intros Hx.
      apply (Hdisj _ Hx), list_elem_of_here. }
    unfold set_add at 2. rewrite decide_False by done.
    rewrite IH; rewrite <- app_assoc; done.
Qed.

Lemma Set_new_NoDup l : NoDup l -> Set_new l = l.
Proof. intros H. unfold Set_new. by rewrite fold_set_add_fresh. Qed.

(** X1.  The keys of the store after [mergeBooks] are the keys before
    followed by the keys of the input, each kept at its first occurrence
    only: a merge never reorders what is stored, and new books come last, in
    the order of the input. *)
Theorem mergeBooks_key_order (incoming : list BookFields) (w : World) :
  let store' := readStore (mergeBooks incoming w).2 in
  keys_of store' = Set_new (keys_of (readStore w) ++ (keyOf <$> incoming))
  /\ (NoDup (keys_of (readStore w)) -> keys_of (readStore w) `prefix_of` keys_of store').
Proof.
  cbv zeta.
  assert (keys_of (readStore (mergeBooks incoming w).2)
          = fold_left set_add (keyOf <$> incoming)
              (Set_new (keys_of (readStore w)))) as Hkeys.
  { rewrite keys_mergeBooks. unfold merge_loop. rewrite loop_key_order.
    cbn [storeMap]. unfold store_map, Map_new.
    by rewrite fold_map_set_key_order, pair_key_fst. }
  split.
  - rewrite Hkeys. unfold Set_new. by rewrite fold_left_app.
  - intros Hnd. rewrite Hkeys, Set_new_NoDup by done. apply fold_set_add_prefix.
Qed.

(** X1, worked example: the new rating of Dune stays in front of Emma. *)
Lemma mergeBooks_key_order_example :
  keys_of (readStore sample_world)
  `prefix_of` keys_of (readStore (mergeBooks [dune_manual] sample_world).2).
Proof.
  apply (mergeBooks_key_order [dune_manual] sample_world).
  apply (bool_decide_unpack _). vm_compute. exact I.
Defined.

(** ** [upsertBook] on the stored array *)

Lemma findIndex_None {A} (p : A -> bool) l :
  findIndex p l = None <-> Forall (fun x => p x = false) l.
Proof.
  induction l as [|a l IH]; simpl; [by split; [constructor|]|].
  destruct (p a) eqn:Hpa.
  - split; [done|]. intros [? _]%Forall_cons. congruence.
  - destruct (findIndex p l); simpl.
    + split; [done|]. intros [_ Hl]%Forall_cons. by apply IH in Hl.
    + split; [|done]. intros _. constructor; [done|]. by apply IH.
Qed.

Lemma findIndex_Some {A} (p : A -> bool) l i :
  findIndex p l = Some i ->
  (exists x, l !! i = Some x /\ p x = true)
  /\ Forall (fun x => p x = false) (take i l).
Proof.
  revert i. induction l as [|a l IH]; intros i; simpl; [done|].
  destruct (p a) eqn:Hpa.
  - intros [= <-]. split; [by exists a | constructor].
  - destruct (findIndex p l) as [j|]; [|done]. simpl. intros [= <-].
    destruct (IH j eq_refl) as [Hx Hbefore]. split; [done|].
    simpl. by constructor.
Qed.

Lemma upsert_other {A} (p : A -> bool) (l : list A) x j y :
  l !! j = Some y -> p y = false ->
  match findIndex p l with
  | Some i => <[i := x]> l
  | None => l ++ [x]
  end !! j = Some y.
Proof.
  intros Hj Hy. destruct (findIndex p l) as [i|] eqn:Hfind.
  - destruct (decide (i = j)) as [->|Hne].
    + apply findIndex_Some in Hfind as [(z & Hz & Hpz) _]. congruence.
    + by rewrite list_lookup_insert_ne.
  - by apply lookup_app_l_Some.
Qed.

Lemma upsertBook_keys book w :
  keys_of (readStore (upsertBook book w))
  = set_add (keys_of (readStore w)) (keyOf book).
Proof.
  rewrite upsertBook_eq, readStore_writeStore.
  rewrite upsert_as_map_set, keyed_keys, map_keys_set_add.
  - unfold map_keys. by rewrite pair_key_fst.
  - apply map_set_keyed; [done|]. apply Forall_forall.
    by intros x (e & -> & _)%list_elem_of_fmap.
Qed.

Lemma upsertBook_other book w i (e : BookEntry) :
  readStore w !! i = Some e -> book_key e <> keyOf book ->
  readStore (upsertBook book w) !! i = Some e.
Proof.
  intros Hi Hne. rewrite upsertBook_eq, readStore_writeStore.
  apply upsert_other; [done|]. by apply String.eqb_neq.
Qed.

Lemma upsertBook_stored book w :
  stamped book (clock w (now w)) ∈ readStore (upsertBook book w).
Proof.
  rewrite upsertBook_eq, readStore_writeStore, upsert_as_map_set.
  apply (map_get_values _ (keyOf book)), map_get_set_eq.
Qed.

(** X2.  [upsertBook] works in place, whatever the store holds: every
    record of another key stays at its index, the keys keep their order with
    the key of the book added at the end when it is new, the count grows by
    one exactly when the key is new, and the stamped book is stored. *)
Theorem upsertBook_in_place (book : BookFields) (w : World) :
  let store := readStore w in
  let store' := readStore (upsertBook book w) in
  (forall i (e : BookEntry),
     store !! i = Some e -> book_key e <> keyOf book -> store' !! i = Some e)
  /\ keys_of store' = set_add (keys_of store) (keyOf book)
  /\ getBookCount (upsertBook book w)
     = (if decide (keyOf book ∈ keys_of store)
        then getBookCount w else S (getBookCount w))
  /\ stamped book (clock w (now w)) ∈ store'.
Proof.
  cbv zeta. split_and!.
  - intros i e. apply upsertBook_other.
  - apply upsertBook_keys.
  - unfold getBookCount. rewrite <- !(length_fmap book_key).
    change (book_key <$> ?l) with (keys_of l). rewrite upsertBook_keys.
    unfold set_add. case_decide; [done|]. rewrite length_app. simpl. lia.
  - apply upsertBook_stored.
Qed.

Lemma findIndex_insert {A} (p : A -> bool) l i x :
  findIndex p l = Some i -> p x = true -> findIndex p (<[i := x]> l) = Some i.
Proof.
  revert i. induction l as [|a l IH]; intros i; simpl; [done|].
  destruct (p a) eqn:Hpa.
  - intros [= <-] Hx. simpl. by rewrite Hx.
  - destruct (findIndex p l) as [j|]; [|done]. simpl. intros [= <-] Hx.
    simpl. by rewrite Hpa, (IH j eq_refl Hx).
Qed.

Lemma findIndex_snoc {A} (p : A -> bool) l x :
  findIndex p l = None -> p x = true -> findIndex p (l ++ [x]) = Some (length l).
Proof.
  induction l as [|a l IH]; simpl; intros Hnone Hx; [by rewrite Hx|].
  destruct (p a); [done|]. destruct (findIndex p l); [done|].
  by rewrite IH.
Qed.

(** X3.  When two books with the same identity key are upserted one after
    the other, the store ends as if only the second had been upserted, one
    clock reading later: the first leaves no trace. *)
Theorem upsertBook_last_wins (first second : BookFields) (w : World) :
  keyOf first = keyOf second ->
  upsertBook second (upsertBook first w) = upsertBook second (ticked 1 w).
Proof.
  intros Hkey. rewrite !(upsertBook_eq second), (upsertBook_eq first).
  rewrite readStore_writeStore. cbn [clock now ticked writeStore setStorage storage].
  set (is_key := fun e : BookEntry => (book_key e =? keyOf second)%string).
  set (e1 := stamped first (clock w (now w))).
  set (e2 := stamped second (clock w (now w + 1))).
  assert (is_key e1 = true) as He1.
  { unfold is_key, e1. cbn [stamped book_key]. rewrite Hkey. apply String.eqb_refl. }
  rewrite Hkey. fold is_key.
  change (readStore (ticked 1 w)) with (readStore w).
  destruct (findIndex is_key (readStore w)) as [i|] eqn:Hfind.
  - rewrite (findIndex_insert _ _ _ _ Hfind He1), list_insert_insert_eq.
    reflexivity.
  - rewrite (findIndex_snoc _ _ _ Hfind He1).
    replace (length (readStore w)) with (length (readStore w) + 0) at 1 by lia.
    rewrite insert_app_r. reflexivity.
Qed.

(** X3, worked example: a first rating of Dune followed by the manual edit. *)
Lemma upsertBook_last_wins_example :
  readStore (upsertBook dune_manual (upsertBook dune (fresh_world sample_clock)))
  = [stamped dune_manual (sample_clock 1)].
Proof.
  rewrite (upsertBook_last_wins dune dune_manual (fresh_world sample_clock) eq_refl).
  reflexivity.
Defined.

(** ** The two slots do not interfere *)

(** X4.  The record store and the shown set never touch each other: merging
    and upserting leave the shown set as it is, adding to the shown set or
    clearing it leaves the stored records as they are, and only [clearAll]
    empties both. *)
Theorem store_and_shown_are_separate
    (incoming : list BookFields) (book : BookFields) (ids : list string) (w : World) :
  getShownBookIds (mergeBooks incoming w).2 = getShownBookIds w
  /\ getShownBookIds (upsertBook book w) = getShownBookIds w
  /\ readStore (addShownBookIds ids w) = readStore w
  /\ readStore (clearShownBookIds w) = readStore w
  /\ readStore (clearAll w) = []
  /\ getShownBookIds (clearAll w) = [].
Proof.
  split_and!; [by rewrite mergeBooks_eq | reflexivity..].
Qed.

(** ** What the recommender sees after a rating *)

Lemma mergeBooks_only incoming w l1 b l2 (e : BookEntry) :
  incoming = l1 ++ b :: l2 -> keyOf b ∉ keyOf <$> l2 ->
  e ∈ readStore (mergeBooks incoming w).2 -> book_key e = keyOf b ->
  e = stamped b (clock w (now w + length l1)).
Proof.
  intros -> Hlast He Hk. rewrite readStore_mergeBooks in He.
  destruct (elem_of_map_values _ _ (merge_loop_keyed _ w) He) as [Hget|Hdup].
  - unfold merge_loop in Hget. rewrite Hk, loop_last in Hget by done.
    cbn [world] in Hget. congruence.
  - destruct Hdup. apply merge_loop_NoDup.
Qed.

(** X5.  A book upserted with a rating of at least 1 is among the rated
    books afterwards; a book upserted with a lower rating into a store with
    one record per key has no record among the rated books any more. *)
Theorem upsertBook_then_rated (book : BookFields) (w : World) :
  ((1 <= rating book)%Z ->
   stamped book (clock w (now w)) ∈ getRatedBooks (upsertBook book w))
  /\ ((rating book < 1)%Z -> NoDup (keys_of (readStore w)) ->
      forall e : BookEntry,
        e ∈ getRatedBooks (upsertBook book w) -> book_key e <> keyOf book).
Proof.
  split.
  - intros Hr. unfold getRatedBooks. apply list_elem_of_filter. split; [done|].
    apply upsertBook_stored.
  - intros Hr Hnd e He Hk. unfold getRatedBooks in He.
    apply list_elem_of_filter in He as [Hrated He].
    rewrite upsertBook_merge in He by done.
    apply (mergeBooks_only [book] w [] book []) in He; [|done|apply not_elem_of_nil|done].
    subst e. cbn [stamped fields rating] in Hrated. lia.
Qed.

(** X5, worked example: the manual rating of Dune. *)
Lemma upsertBook_then_rated_example :
  stamped dune_manual (sample_clock 2)
  ∈ getRatedBooks (upsertBook dune_manual sample_world).
Proof.
  apply (proj1 (upsertBook_then_rated dune_manual sample_world)).
  vm_compute. discriminate.
Defined.

(** ** The first import after a reset *)

Lemma Set_new_elem l x : x ∈ Set_new l <-> x ∈ l.
Proof. unfold Set_new. rewrite fold_set_add_elem, elem_of_nil. tauto. Qed.

Lemma Set_new_is_NoDup l : NoDup (Set_new l).
Proof. apply fold_set_add_NoDup, NoDup_nil_2. Qed.

(** X6.  After [clearAll], a merge stores the keys of the input in the
    order of their first occurrence, returns the number of different keys
    as total, and counts as updated exactly the records that repeat a key
    of an earlier record. *)
Theorem mergeBooks_after_clearAll (incoming : list BookFields) (w : World) :
  let result := (mergeBooks incoming (clearAll w)).1 in
  let store' := readStore (mergeBooks incoming (clearAll w)).2 in
  keys_of store' = Set_new (keyOf <$> incoming)
  /\ total result = size (list_to_set (keyOf <$> incoming) : gset string)
  /\ total result + updated result = length incoming.
Proof.
  cbv zeta.
  assert (map_keys (storeMap (merge_loop incoming (clearAll w)))
          = Set_new (keyOf <$> incoming)) as Hkeys.
  { unfold merge_loop. by rewrite loop_key_order. }
  split_and!.
  - by rewrite keys_mergeBooks.
  - rewrite mergeBooks_eq. cbn [fst total]. unfold map_size.
    rewrite <- (length_fmap fst). fold (map_keys (storeMap (merge_loop incoming (clearAll w)))).
    rewrite Hkeys.
    rewrite <- (size_list_to_set (C:=gset string)) by apply Set_new_is_NoDup.
    f_equal. apply set_eq. intros k.
    by rewrite !elem_of_list_to_set, Set_new_elem.
  - rewrite mergeBooks_eq. cbn [fst total updated]. unfold merge_loop.
    rewrite (loop_count incoming). reflexivity.
Qed.

(** ** More on the shown set *)

Lemma Set_new_app a b : Set_new (a ++ b) = fold_left set_add b (Set_new a).
Proof. unfold Set_new. by rewrite fold_left_app. Qed.

(** X7.  Adding the same ids to the shown set a second time changes
    nothing; ids that are shown already are not stored again; and a shown
    set without repeats keeps its ids in front, in their order. *)
Theorem addShownBookIds_idempotent (ids : list string) (w : World) :
  getShownBookIds (addShownBookIds ids (addShownBookIds ids w))
  = getShownBookIds (addShownBookIds ids w)
  /\ (NoDup (getShownBookIds w) ->
      getShownBookIds w `prefix_of` getShownBookIds (addShownBookIds ids w))
  /\ (NoDup (getShownBookIds w) ->
      (forall x, x ∈ ids -> x ∈ getShownBookIds w) ->
      getShownBookIds (addShownBookIds ids w) = getShownBookIds w).
Proof.
  rewrite !getShown_addShown. split_and!.
  - rewrite (Set_new_app (Set_new _)).
    rewrite Set_new_NoDup by apply Set_new_is_NoDup.
    apply fold_set_add_absorb. intros x Hx.
    apply Set_new_elem, elem_of_app. by right.
  - intros Hnd. rewrite Set_new_app, Set_new_NoDup by done.
    apply fold_set_add_prefix.
  - intros Hnd Hin. rewrite Set_new_app, Set_new_NoDup by done.
    by apply fold_set_add_absorb.
Qed.

(** X7, worked example: x and y are shown, y is added again. *)
Lemma addShownBookIds_idempotent_example :
  getShownBookIds
    (addShownBookIds ["y"] (addShownBookIds ["x"; "y"] (fresh_world sample_clock)))
  = ["x"; "y"].
Proof.
  apply (proj2 (proj2 (addShownBookIds_idempotent ["y"]
           (addShownBookIds ["x"; "y"] (fresh_world sample_clock))))).
  - apply (bool_decide_unpack _). vm_compute. exact I.
  - intros x ->%list_elem_of_singleton. apply list_elem_of_further, list_elem_of_here.
Defined.

(** ** More on the import adapter *)

Lemma trimEnd_idem s : Js.trimEnd (Js.trimEnd s) = Js.trimEnd s.
Proof.
  induction s as [|c s IH]; [done|]. cbn [Js.trimEnd].
  destruct (Js.trimEnd s) as [|c' r] eqn:Hs.
  - destruct (Js.isWhiteSpace c) eqn:Hc; [done|]. simpl. by rewrite Hc.
  - change (Js.trimEnd (String c (String c' r)))
      with (match Js.trimEnd (String c' r) with
            | "" => if Js.isWhiteSpace c then "" else String c ""
            | String a t => String c (String a t)
            end).
    by rewrite IH.
Qed.

Lemma trimStart_trimEnd_trimStart s :
  Js.trimStart (Js.trimEnd (Js.trimStart s)) = Js.trimEnd (Js.trimStart s).
Proof.
  induction s as [|c s IH]; [done|].
  change (Js.trimStart (String c s))
    with (if Js.isWhiteSpace c then Js.trimStart s else String c s).
  destruct (Js.isWhiteSpace c) eqn:Hc; [apply IH|].
  change (Js.trimEnd (String c s))
    with (match Js.trimEnd s with
          | "" => if Js.isWhiteSpace c then "" else String c ""
          | String a t => String c (String a t)
          end).
  rewrite Hc. destruct (Js.trimEnd s); simpl; by rewrite Hc.
Qed.

Lemma trim_trim s : Js.trim (Js.trim s) = Js.trim s.
Proof.
  unfold Js.trim. by rewrite trimStart_trimEnd_trimStart, trimEnd_idem.
Qed.

Lemma stripQuoteEnd_snoc s :
  CsvParser.stripQuoteEnd (s +:+ String CsvParser.quote "") = s.
Proof.
  induction s as [|c s IH]; [done|].
  change (String c s +:+ ?t) with (String c (s +:+ t)).
  cbn [CsvParser.stripQuoteEnd]. rewrite IH. by destruct s.
Qed.

Lemma stripQuoteEnd_keep s :
  (forall r, s <> r +:+ String CsvParser.quote "") -> CsvParser.stripQuoteEnd s = s.
Proof.
  induction s as [|c s IH]; intros Hlast; [done|]. cbn [CsvParser.stripQuoteEnd].
  destruct s as [|c' s'].
  - destruct (Ascii.eqb_spec c CsvParser.quote) as [->|]; [|done].
    by destruct (Hlast "").
  - rewrite IH; [done|]. intros r Hr. apply (Hlast (String c r)). simpl. by rewrite Hr.
Qed.

Lemma orUndefined_nonempty v : Js.orUndefined v <> Some "".
Proof. by destruct v as [[|]|]. Qed.

Lemma cleanIsbn_nonempty v : CsvParser.cleanIsbn v <> Some "".
Proof.
  unfold CsvParser.cleanIsbn. destruct v as [[|c s]|]; [done| |done].
  apply orUndefined_nonempty.
Qed.

(** X8.  [cleanIsbn] never returns the empty string; an absent or blank
    cell gives no ISBN; the spreadsheet wrapping, an equals sign and a pair
    of double quotes around a trimmed non-empty text, is removed exactly;
    and a trimmed non-empty text that neither starts with an equals sign
    nor ends with a double quote is returned as it is. *)
Theorem cleanIsbn_unwraps (s : string) :
  (forall v, CsvParser.cleanIsbn v <> Some "")
  /\ CsvParser.cleanIsbn None = None
  /\ (Js.isBlank s = true -> CsvParser.cleanIsbn (Some s) = None)
  /\ (Js.trim s = s -> s <> "" ->
      CsvParser.cleanIsbn
        (Some ("=" +:+ String CsvParser.quote s +:+ String CsvParser.quote ""))
      = Some s)
  /\ (Js.trim s = s -> s <> "" ->
      (forall r, s <> String "=" r) ->
      (forall r, s <> r +:+ String CsvParser.quote "") ->
      CsvParser.cleanIsbn (Some s) = Some s).
Proof.
  split_and!.
  - apply cleanIsbn_nonempty.
  - done.
  - intros Hblank. destruct s as [|c s]; [done|].
    unfold CsvParser.cleanIsbn.
    assert (CsvParser.stripWrapStart (String c s) = String c s) as ->.
    { unfold Js.isBlank in Hblank. simpl in Hblank.
      apply andb_true_iff in Hblank as [Hc _].
      revert Hc. each_char c; try done. }
    rewrite stripQuoteEnd_keep.
    + unfold Js.trim. by rewrite (trimStart_blank _ Hblank).
    + intros r Hr. rewrite Hr in Hblank. clear -Hblank.
      unfold Js.isBlank in Hblank. induction r as [|a r IH]; [done|].
      simpl in Hblank. apply andb_true_iff in Hblank as [_ Hblank]. auto.
  - intros Htrim Hne. unfold CsvParser.cleanIsbn.
    change ("=" +:+ String CsvParser.quote s +:+ ?t)
      with (String "=" (String CsvParser.quote (s +:+ t))).
    cbn [CsvParser.stripWrapStart]. rewrite Ascii.eqb_refl.
    rewrite stripQuoteEnd_snoc, Htrim. by destruct s.
  - intros Htrim Hne Heq Hquote. destruct s as [|c s]; [done|].
    unfold CsvParser.cleanIsbn.
    assert (CsvParser.stripWrapStart (String c s) = String c s) as ->.
    { unfold CsvParser.stripWrapStart.
      destruct (Ascii.eqb_spec c "=") as [->|Hc]; [by destruct (Heq s)|].
      revert Hc. each_char c; try done. }
    by rewrite stripQuoteEnd_keep, Htrim.
Qed.

(** X8, worked example: the ISBN cell of a Goodreads export. *)
Lemma cleanIsbn_unwraps_example :
  CsvParser.cleanIsbn
    (Some ("=" +:+ String CsvParser.quote "0441172717"
           +:+ String CsvParser.quote ""))
  = Some "0441172717".
Proof.
  apply (proj1 (proj2 (proj2 (proj2 (cleanIsbn_unwraps "0441172717"))))).
  - reflexivity.
  - discriminate.
Defined.

Lemma orElse_trim_cell (cell : option string) :
  Js.orElse (Js.trim <$> cell) "" = Js.trim (default "" cell).
Proof. destruct cell as [t|]; [|done]. simpl. by destruct (Js.trim t). Qed.

Lemma orElse_nonempty v d : d <> "" -> Js.orElse v d <> "".
Proof. by destruct v as [[|]|]. Qed.

Lemma makeKey_trim title author :
  makeKey (Js.trim title) (Js.trim author) = makeKey title author.
Proof. unfold makeKey. by rewrite !trim_toLowerCase, !trim_trim. Qed.

(** What the adapter makes of one row, field by field. *)
Lemma row_to_entry_fields row w :
  let e := (CsvParser.row_to_entry row w).1 in
  title e = Js.trim (default "" (row !! "Title"))
  /\ author e = Js.trim (default "" (row !! "Author"))
  /\ book_key e = makeKey (default "" (row !! "Title")) (default "" (row !! "Author"))
  /\ shelf e <> "" /\ source e = goodreads /\ genre e = None
  /\ review e <> Some "" /\ bookshelves e <> Some "" /\ isbn e <> Some "".
Proof.
  cbv zeta. unfold CsvParser.row_to_entry, CsvParser.cell_trim.
  cbn [fst Date_toISOString title author book_key shelf source genre review
       bookshelves isbn fields].
  rewrite !orElse_trim_cell. split_and!; try done.
  - apply makeKey_trim.
  - by apply orElse_nonempty.
  - apply orUndefined_nonempty.
  - apply orUndefined_nonempty.
  - apply cleanIsbn_nonempty.
Qed.

(** X9.  Every record of a successful import comes from a row of the table
    whose title is not blank: its title and author are the trimmed cells
    (the author empty when the cell is absent), so the title is not empty
    and neither has white space around it; its identity key is the key of
    the untrimmed cells; its shelf is not empty, its source is goodreads, it
    has no genre, and none of its optional texts is the empty string. *)
Theorem parsed_records_are_clean
    (rows : list (gmap string string)) (w : World) (books : list BookEntry) :
  (CsvParser.parseGoodreadsCSV (CsvParser.PapaComplete rows) w).1 = inr books ->
  forall e : BookEntry, e ∈ books ->
    (exists row, row ∈ rows /\ blank_title row = false
       /\ title e = Js.trim (default "" (row !! "Title"))
       /\ author e = Js.trim (default "" (row !! "Author"))
       /\ book_key e = makeKey (default "" (row !! "Title"))
                         (default "" (row !! "Author")))
    /\ title e <> "" /\ Js.trim (title e) = title e /\ Js.trim (author e) = author e
    /\ shelf e <> "" /\ source e = goodreads /\ genre e = None
    /\ review e <> Some "" /\ bookshelves e <> Some "" /\ isbn e <> Some "".
Proof.
  rewrite parseGoodreadsCSV_complete.
  destruct rows as [|firstRow rest]; [done|].
  destruct (filter _ CsvParser.required) as [|col missing]; [|done].
  cbv zeta. cbn [fst]. set (kept := filter _ (firstRow :: rest)).
  intros Hbooks e He. assert (e ∈ imap
    (fun i row => (CsvParser.row_to_entry row (ticked i w)).1) kept) as Hin
    by congruence. clear Hbooks He.
  apply list_elem_of_lookup in Hin as [i Hi].
  apply list_lookup_imap_Some in Hi as (row & Hrow & ->).
  apply list_elem_of_lookup_2 in Hrow.
  apply list_elem_of_filter in Hrow as [Hblank Hrow].
  destruct (row_to_entry_fields row (ticked i w))
    as (Ht & Ha & Hk & Hs & Hsrc & Hg & Hr & Hb & Hi).
  cbv zeta in *. split_and!; try done.
  - by exists row.
  - rewrite Ht. unfold blank_title in Hblank.
    destruct (row !! "Title") as [t|]; [|done]. simpl.
    pose proof (truthy_trim t) as Htr. rewrite Hblank in Htr.
    by destruct (Js.trim t).
  - rewrite Ht. apply trim_trim.
  - rewrite Ha. apply trim_trim.
Qed.

(** X9, worked example: the record of the Dune row. *)
Lemma parsed_records_are_clean_example :
  Js.trim (title (stamped dune (sample_clock 0))) = title (stamped dune (sample_clock 0)).
Proof.
  apply (parsed_records_are_clean [dune_row; blank_row] (fresh_world sample_clock)
           [stamped dune (sample_clock 0)] eq_refl).
  apply list_elem_of_here.
Defined.

Lemma handleCsvUpload_result file w :
  (handleCsvUpload file w).1 =
    match (CsvParser.parseGoodreadsCSV file w).1 with
    | inr books =>
        inr (mergeBooks (fields <$> books) (CsvParser.parseGoodreadsCSV file w).2).1
    | inl e => inl e
    end.
Proof.
  unfold handleCsvUpload.
  destruct (CsvParser.parseGoodreadsCSV file w) as [[e|books] w1]; [done|].
  cbn [fst snd]. by destruct (mergeBooks _ w1).
Qed.

Lemma parse_failure_world file w e :
  (CsvParser.parseGoodreadsCSV file w).1 = inl e ->
  (CsvParser.parseGoodreadsCSV file w).2 = w.
Proof.
  destruct file as [rows|message]; [|done].
  rewrite parseGoodreadsCSV_complete.
  destruct rows as [|firstRow rest]; [done|].
  by destruct (filter _ CsvParser.required).
Qed.

(** X10.  A file the adapter rejects changes nothing: the upload reports
    the error of the adapter, [mergeBooks] is not run on anything, and the
    stored records, the shown set and the clock are as before, since the
    adapter rejects before it reads the clock for any row. *)
Theorem rejected_file_changes_nothing
    (file : CsvParser.PapaResult) (w : World) (e : CsvParser.ImportError) :
  (CsvParser.parseGoodreadsCSV file w).1 = inl e ->
  handleCsvUpload file w = (inl e, w).
Proof.
  intros Hparse. pose proof (parse_failure_world _ _ _ Hparse) as Hworld.
  unfold handleCsvUpload.
  destruct (CsvParser.parseGoodreadsCSV file w) as [[e'|books] w1]; [|done].
  cbn [fst snd] in Hparse, Hworld. congruence.
Qed.

(** X10, worked example: an export without the Author column, uploaded into
    a store that holds two books. *)
Lemma rejected_file_changes_nothing_example :
  handleCsvUpload (CsvParser.PapaComplete [dune_row_no_author]) sample_world
  = (inl (CsvParser.SchemaMismatch ["Author"]), sample_world).
Proof.
  apply (rejected_file_changes_nothing
           (CsvParser.PapaComplete [dune_row_no_author]) sample_world
           (CsvParser.SchemaMismatch ["Author"]) eq_refl).
Defined.

(** Merging the same list into any world that holds the outcome of its first
    merge. *)
Lemma merge_again incoming w w2 :
  readStore w2 = readStore (mergeBooks incoming w).2 ->
  total (mergeBooks incoming w2).1 = total (mergeBooks incoming w).1
  /\ updated (mergeBooks incoming w2).1 = length incoming.
Proof.
  intros Hstore.
  assert (store_map (readStore w2) = storeMap (merge_loop incoming w)) as Hmap.
  { rewrite Hstore, readStore_mergeBooks.
    apply store_map_values; [apply merge_loop_keyed | apply merge_loop_NoDup]. }
  destruct (loop_all_present incoming
              {| storeMap := storeMap (merge_loop incoming w);
                 updatedCount := 0; world := w2 |}) as [Hkeys Hupd].
  { intros b Hb. cbn [storeMap]. unfold merge_loop. apply loop_keys.
    right. by apply list_elem_of_fmap_2. }
  cbv zeta in Hkeys, Hupd. cbn [storeMap updatedCount] in Hkeys, Hupd.
  rewrite (mergeBooks_eq incoming w2), (mergeBooks_eq incoming w).
  cbn [fst total updated]. unfold merge_loop at 1 3. rewrite Hmap, Hupd.
  split; [|done].
  unfold map_size. rewrite <- !(length_fmap fst).
  unfold map_keys in Hkeys. by rewrite Hkeys.
Qed.

(** The fields the adapter produces do not depend on the clock. *)
Lemma parsed_fields rows w :
  fields <$> imap (fun i row => (CsvParser.row_to_entry row (ticked i w)).1) rows
  = (fun row => fields (CsvParser.row_to_entry row w).1) <$> rows.
Proof.
  rewrite fmap_imap, <- imap_const. by apply imap_ext.
Qed.

(** X11.  Uploading the same export a second time, right after a successful
    upload of it, succeeds again, reports the same total, and reports every
    row with a title as updated. *)
Theorem reupload_same_export
    (rows : list (gmap string string)) (w : World) (first : MergeResult) :
  (handleCsvUpload (CsvParser.PapaComplete rows) w).1 = inr first ->
  exists second : MergeResult,
    (handleCsvUpload (CsvParser.PapaComplete rows)
       (handleCsvUpload (CsvParser.PapaComplete rows) w).2).1 = inr second
    /\ total second = total first
    /\ updated second = length (filter (fun row => blank_title row = false) rows).
Proof.
  rewrite !handleCsvUpload_result, handleCsvUpload_world.
  rewrite !parseGoodreadsCSV_complete.
  destruct rows as [|firstRow rest]; [done|].
  destruct (filter _ CsvParser.required) as [|col missing]; [|done].
  cbv zeta. cbn [fst snd]. set (kept := filter _ (firstRow :: rest)).
  rewrite !parsed_fields.
  set (incoming := (fun row => fields (CsvParser.row_to_entry row w).1) <$> kept).
  change ((fun row => fields (CsvParser.row_to_entry row ?w').1) <$> kept)
    with incoming.
  intros [= <-]. eexists. split; [done|].
  set (w1 := ticked (length kept) w).
  destruct (merge_again incoming w1
              (ticked (length kept) (mergeBooks incoming w1).2) eq_refl)
    as [Htotal Hupdated].
  split; [done|]. rewrite Hupdated. unfold incoming. apply length_fmap.
Qed.

(** X11, worked example: the two-row export, uploaded twice. *)
Lemma reupload_same_export_example :
  exists second : MergeResult,
    (handleCsvUpload (CsvParser.PapaComplete [dune_row; blank_row])
       (handleCsvUpload (CsvParser.PapaComplete [dune_row; blank_row])
          (fresh_world sample_clock)).2).1 = inr second
    /\ total second = 1 /\ updated second = 1.
Proof.
  apply (reupload_same_export [dune_row; blank_row] (fresh_world sample_clock)
           {| total := 1; updated := 0 |} eq_refl).
Defined.

(** ** Reading the rating cell *)

Lemma digit_pretty_N_char d :
  (d < 10)%N -> Js.digit (pretty_N_char d) = Some (Z.of_N d).
Proof.
  intros Hd.
  assert (d = 0 \/ d = 1 \/ d = 2 \/ d = 3 \/ d = 4 \/ d = 5 \/ d = 6
          \/ d = 7 \/ d = 8 \/ d = 9)%N as Hcases by lia.
  repeat (destruct Hcases as [->|Hcases]; [reflexivity|]). by subst.
Qed.

(** Reading the numeral of [x] in front of [s] leaves [x] as the value read
    so far. *)
Lemma digits_pretty_N_go x s :
  (0 < x)%N ->
  Js.digits (pretty_N_go x s) None = Js.digits s (Some (Z.of_N x)).
Proof.
  revert s. induction (N.lt_wf_0 x) as [x _ IH]; intros s Hx.
  rewrite pretty_N_go_step by done.
  assert (x `mod` 10 < 10)%N as Hmod by (apply N.mod_lt; lia).
  assert (Z.of_N x = 10 * Z.of_N (x `div` 10) + Z.of_N (x `mod` 10))%Z as Hx10.
  { rewrite (N.div_mod x 10) at 1 by lia. lia. }
  destruct (decide (x `div` 10 = 0)%N) as [Hdiv|Hdiv].
  - rewrite Hdiv, pretty_N_go_0. cbn [Js.digits].
    rewrite digit_pretty_N_char by done. cbn [default].
    rewrite Hx10, Hdiv. done.
  - rewrite IH; [|apply N.div_lt; lia|lia]. cbn [Js.digits].
    rewrite digit_pretty_N_char by done. cbn [default]. by rewrite Hx10.
Qed.

(** A numeral starts with a digit. *)
Lemma pretty_N_go_head x s :
  (0 < x)%N ->
  exists d r, (d < 10)%N /\ pretty_N_go x s = String (pretty_N_char d) r.
Proof.
  revert s. induction (N.lt_wf_0 x) as [x _ IH]; intros s Hx.
  rewrite pretty_N_go_step by done.
  destruct (decide (x `div` 10 = 0)%N) as [Hdiv|Hdiv].
  - rewrite Hdiv, pretty_N_go_0. exists (x `mod` 10)%N, s.
    split; [apply N.mod_lt; lia | done].
  - apply IH.
    + apply N.div_lt; lia.
    + by apply N.neq_0_lt_0.
Qed.

Lemma parseInt10_digit_head d r :
  (d < 10)%N ->
  Js.parseInt10 (String (pretty_N_char d) r)
  = Js.digits (String (pretty_N_char d) r) None.
Proof.
  intros Hd.
  assert (d = 0 \/ d = 1 \/ d = 2 \/ d = 3 \/ d = 4 \/ d = 5 \/ d = 6
          \/ d = 7 \/ d = 8 \/ d = 9)%N as Hcases by lia.
  repeat (destruct Hcases as [->|Hcases]; [reflexivity|]). by subst.
Qed.

Lemma digits_pretty_pos p : Js.digits (pretty (Npos p)) None = Some (Zpos p).
Proof.
  unfold pretty, pretty_N. rewrite decide_False by done.
  by rewrite digits_pretty_N_go.
Qed.

Lemma parseInt10_pretty (z : Z) : Js.parseInt10 (pretty z) = Some z.
Proof.
  destruct z as [|p|p]; [done| |].
  - change (pretty (Zpos p)) with (pretty (Npos p)).
    rewrite <- digits_pretty_pos. unfold pretty, pretty_N.
    rewrite decide_False by done.
    destruct (pretty_N_go_head (Npos p) "") as (d & r & Hd & ->); [done|].
    by apply parseInt10_digit_head.
  - change (pretty (Zneg p)) with (String "-" (pretty (Npos p))).
    change (Js.parseInt10 (String "-" ?t)) with (Z.opp <$> Js.digits t None).
    by rewrite digits_pretty_pos.
Qed.

(** X12.  The rating of an imported row is the integer its My Rating cell
    spells in decimal, for every integer the Number type holds exactly; it
    is 0 when the cell is absent or empty, and 0 when the cell starts with
    anything but white space, a sign or a digit. *)
Theorem rating_cell_is_read (row : gmap string string) (w : World) :
  let e := (CsvParser.row_to_entry row w).1 in
  (forall z : Z,
     (Z.abs z < 2 ^ 53)%Z -> row !! "My Rating" = Some (pretty z) -> rating e = z)
  /\ (row !! "My Rating" = None \/ row !! "My Rating" = Some "" -> rating e = 0%Z)
  /\ (forall c s,
        row !! "My Rating" = Some (String c s) ->
        Js.isWhiteSpace c = false -> Js.digit c = None ->
        c <> "-"%char -> c <> "+"%char ->
        rating e = 0%Z).
Proof.
  cbv zeta. unfold CsvParser.row_to_entry.
  cbn [fst Date_toISOString rating fields]. split_and!.
  - intros z _ ->.
    assert (Js.orElse (Some (pretty z)) "0" = pretty z) as ->.
    { pose proof (parseInt10_pretty z) as Hz. by destruct (pretty z). }
    by rewrite parseInt10_pretty.
  - by intros [-> | ->].
  - intros c s -> Hws Hdigit Hminus Hplus. cbn [Js.orElse].
    unfold Js.parseInt10. cbn [Js.trimStart]. rewrite Hws.
    assert (Js.digits (String c s) None = None) as Hnone.
    { cbn [Js.digits]. by rewrite Hdigit. }
    revert Hminus Hplus Hnone. each_char c; try done; intros; by rewrite Hnone.
Qed.

(** X12, worked example: the cell 5. *)
Lemma rating_cell_is_read_example :
  rating (CsvParser.row_to_entry dune_row (fresh_world sample_clock)).1 = 5%Z.
Proof.
  apply (proj1 (rating_cell_is_read dune_row (fresh_world sample_clock)) 5%Z).
  - reflexivity.
  - reflexivity.
Defined.

(** ** Editing a rating in the book table *)

(** X13.  In every reachable store, changing the rating of a stored book
    from the book table adds no record and moves none: the keys stay as they
    are, every other record stays as it is, and the record of the book keeps
    every field but the rating, which is the new one, and the date, which is
    the clock reading of the edit. *)
Theorem handleRatingChange_edits_in_place
    (book : BookEntry) (newRating : Z) (w : World) :
  reachable w -> book ∈ readStore w ->
  let w' := handleRatingChange book newRating w in
  keys_of (readStore w') = keys_of (readStore w)
  /\ getBookCount w' = getBookCount w
  /\ (forall e : BookEntry,
        e ∈ readStore w -> book_key e <> book_key book -> e ∈ readStore w')
  /\ (forall e : BookEntry,
        e ∈ readStore w' -> book_key e = book_key book ->
        e = {| book_key := book_key book;
               fields := with_rating newRating book;
               date_updated := clock w (now w) |}).
Proof.
  intros [Hnd Hkeyed]%reachable_invariant Hbook. cbv zeta.
  assert (book_key book = keyOf book) as Hkey
    by by eapply Forall_forall in Hkeyed.
  assert (keyOf (with_rating newRating book) = book_key book) as Hkey'
    by by rewrite Hkey.
  unfold handleRatingChange.
  assert (book_key book ∈ keys_of (readStore w)) as Hpresent
    by by apply list_elem_of_fmap_2.
  assert (keys_of (readStore (upsertBook (with_rating newRating book) w))
          = keys_of (readStore w)) as Hkeys.
  { rewrite upsertBook_keys, Hkey'. unfold set_add. by rewrite decide_True. }
  split_and!.
  - done.
  - unfold getBookCount. rewrite <- !(length_fmap book_key).
    change (book_key <$> ?l) with (keys_of l). by rewrite Hkeys.
  - intros e [i Hi]%list_elem_of_lookup Hne.
    eapply list_elem_of_lookup_2, upsertBook_other; [done|]. by rewrite Hkey'.
  - intros e He Hk. rewrite upsertBook_merge in He by done.
    eapply (mergeBooks_only _ w [] _ []) in He;
      [|done|apply not_elem_of_nil|by rewrite Hkey'].
    rewrite He. unfold stamped. rewrite Hkey'. simpl. by rewrite Nat.add_0_r.
Qed.

(** X13, worked example: Emma, stored unrated, gets three stars. *)
Lemma handleRatingChange_edits_in_place_example :
  getBookCount (handleRatingChange (stamped emma (sample_clock 1)) 3 sample_world)
  = getBookCount sample_world.
Proof.
  apply (handleRatingChange_edits_in_place
           (stamped emma (sample_clock 1)) 3 sample_world).
  - apply reach_merge, reach_empty. reflexivity.
  - apply list_elem_of_further, list_elem_of_here.
Defined.

(** ** The pages of the book table *)

Lemma ceil_div_covers n d : 0 < d -> n <= ceil_div n d * d.
Proof.
  intros Hd. unfold ceil_div. pose proof (Nat.div_mod_eq n d) as Hdm.
  pose proof (Nat.mod_upper_bound n d) as Hmod.
  destruct (Nat.eqb_spec (n mod d) 0) as [H0|H0]; nia.
Qed.

Lemma ceil_div_tight n d : 0 < d -> 0 < n -> (ceil_div n d - 1) * d < n.
Proof.
  intros Hd Hn. unfold ceil_div. pose proof (Nat.div_mod_eq n d) as Hdm.
  pose proof (Nat.mod_upper_bound n d) as Hmod.
  destruct (Nat.eqb_spec (n mod d) 0) as [H0|H0]; [|nia].
  destruct (n / d) eqn:Hq; nia.
Qed.

Lemma concat_chunks {A} (k n : nat) (l : list A) :
  concat ((fun p => take k (drop (p * k) l)) <$> seq 0 n) = take (n * k) l.
Proof.
  induction n as [|n IH]; [done|].
  rewrite seq_S, fmap_app, concat_app, IH. simpl. rewrite app_nil_r.
  rewrite take_take_drop. f_equal. lia.
Qed.

Lemma visible_eq {A} page (sorted : list A) :
  visible page sorted = take PAGE_SIZE (drop (page * PAGE_SIZE) sorted).
Proof. unfold visible, slice. f_equal. lia. Qed.

(** X14.  The pages of the book table split the sorted rows: read one
    after the other, pages 0 to [totalPages - 1] give every row once, in
    order; no page shows more than 20 rows; each of these pages shows at
    least one row and every later page shows none; and from a page that
    exists the Prev and Next buttons lead to a page that exists. *)
Theorem pages_partition_the_rows {A} (sorted : list A) :
  concat ((fun page => visible page sorted) <$> seq 0 (totalPages sorted)) = sorted
  /\ (forall page, length (visible page sorted) <= 20)
  /\ (forall page, page < totalPages sorted -> visible page sorted <> [])
  /\ (forall page, totalPages sorted <= page -> visible page sorted = [])
  /\ (forall page,
        page < totalPages sorted ->
        nextPage page sorted < totalPages sorted
        /\ prevPage page < totalPages sorted).
Proof.
  pose proof (ceil_div_covers (length sorted) PAGE_SIZE) as Hcover.
  pose proof (ceil_div_tight (length sorted) PAGE_SIZE) as Htight.
  fold (totalPages sorted) in Hcover, Htight. unfold PAGE_SIZE in *.
  split_and!.
  - rewrite (list_fmap_ext _ (fun p => take 20 (drop (p * 20) sorted)))
      by (intros; apply visible_eq).
    rewrite concat_chunks. apply take_ge. lia.
  - intros page. rewrite visible_eq, length_take. unfold PAGE_SIZE. lia.
  - intros page Hpage Hnil. apply (f_equal length) in Hnil.
    rewrite visible_eq, length_take, length_drop in Hnil. unfold PAGE_SIZE in Hnil.
    cbn [length] in Hnil.
    assert (0 < length sorted) as Hpos.
    { destruct sorted; [|simpl; lia].
      change (totalPages (@nil A)) with 0 in Hpage. lia. }
    specialize (Htight ltac:(lia) Hpos). nia.
  - intros page Hpage. rewrite visible_eq. unfold PAGE_SIZE.
    rewrite drop_ge; [done|]. specialize (Hcover ltac:(lia)). nia.
  - intros page Hpage. unfold nextPage, prevPage. split.
    + destruct (Z.leb_spec (Z.of_nat (totalPages sorted) - 1) (Z.of_nat page)); lia.
    + destruct (Nat.eqb_spec page 0); lia.
Qed.

(** ** Searching *)

Lemma prefix_refl s : String.prefix s s = true.
Proof.
  induction s as [|c s IH]; [done|]. simpl.
  by destruct (Ascii.ascii_dec c c).
Qed.

Lemma includes_refl s : includes s s = true.
Proof.
  destruct s as [|c s]; simpl; [done|].
  destruct (Ascii.ascii_dec c c); [by rewrite prefix_refl | done].
Qed.

Lemma includes_empty s : includes s "" = true.
Proof. by destruct s. Qed.

Lemma lowerChar_idem c : Js.lowerChar (Js.lowerChar c) = Js.lowerChar c.
Proof. each_char c; reflexivity. Qed.

Lemma toLowerCase_idem s : Js.toLowerCase (Js.toLowerCase s) = Js.toLowerCase s.
Proof. induction s as [|c s IH]; simpl; [done | by rewrite lowerChar_idem, IH]. Qed.

Lemma filter_all {A} (p : A -> bool) l :
  (forall x, x ∈ l -> p x = true) -> List.filter p l = l.
Proof.
  induction l as [|a l IH]; intros Hp; [done|]. simpl.
  rewrite Hp by apply list_elem_of_here. f_equal. apply IH.
  intros x Hx. by apply Hp, list_elem_of_further.
Qed.

Lemma elem_of_List_filter {A} (p : A -> bool) l x :
  x ∈ List.filter p l <-> x ∈ l /\ p x = true.
Proof. rewrite !list_elem_of_In. apply filter_In. Qed.

(** X15.  The search box of the book table: an empty search shows every
    book; a search never shows a book that is not in the table; the case of
    the search text does not matter; searching for the title or the author
    of a book of the table, in any case, shows that book; so the book the
    library page has just added is shown under the search it pre-fills. *)
Theorem filtered_finds (search : string) (books : list BookEntry) :
  filtered "" books = books
  /\ (forall b : BookEntry, b ∈ filtered search books -> b ∈ books)
  /\ filtered (Js.toLowerCase search) books = filtered search books
  /\ (forall upper,
        Js.isAscii search = true -> Js.toUpperCase search = Some upper ->
        filtered upper books = filtered search books)
  /\ (forall b : BookEntry,
        b ∈ books -> b ∈ filtered (title b) books /\ b ∈ filtered (author b) books)
  /\ (forall ttl auth rating genre shelf w,
        exists b : BookEntry,
          b ∈ filtered ttl (getAllBooks (handleAddBook ttl auth rating genre shelf w))
          /\ title b = ttl /\ author b = auth).
Proof.
  unfold filtered. split_and!.
  - apply filter_all. intros b _. unfold mentions. simpl.
    by rewrite includes_empty.
  - intros b Hb. by apply elem_of_List_filter in Hb as [? _].
  - by rewrite toLowerCase_idem.
  - intros upper Hascii Hupper.
    destruct (toUpperCase_ascii search Hascii) as (u & Hu & Hlow).
    assert (u = upper) as -> by congruence. by rewrite Hlow.
  - intros b Hb. split; apply elem_of_List_filter; (split; [done|]);
      unfold mentions; rewrite includes_refl; [done | apply orb_true_r].
  - intros ttl auth rating genre shelf w. eexists. split_and!.
    + apply elem_of_List_filter. split.
      * unfold handleAddBook, getAllBooks. apply upsertBook_stored.
      * unfold mentions. cbn [stamped fields title]. by rewrite includes_refl.
    + done.
    + done.
Qed.

(** X15, worked example: Dune, searched for in capitals. *)
Lemma filtered_finds_example :
  filtered "DUNE" (getAllBooks sample_world) = filtered "Dune" (getAllBooks sample_world).
Proof.
  apply (filtered_finds "Dune" (getAllBooks sample_world)); reflexivity.
Defined.

(** ** Rating a book from the library page *)

Lemma matched_stored query w (m : BookEntry) :
  matched query w = Some m -> m ∈ readStore w.
Proof.
  unfold matched, getAllBooks. case_match; [|done].
  intros [Hin _]%find_some. by apply list_elem_of_In.
Qed.

(** X16.  [handleRateSave] stores nothing when it alerts, and it alerts
    whenever no star is selected or there is neither a match nor a query;
    when it saves, the form is emptied, so that saving again at once alerts
    and stores nothing; and in a reachable store a save on a matched book
    adds no record: the record of the matched book is replaced by one with
    its title, author, shelf, review, shelves and ISBN, the new rating, the
    source recommended and no genre. *)
Theorem handleRateSave_outcomes (form : RateForm) (w : World) :
  let out := handleRateSave form w in
  (is_Some out.1.1 -> out.1.2 = form /\ out.2 = w)
  /\ (rateRating form = 0%Z -> is_Some out.1.1)
  /\ (matched (rateQuery form) w = None -> Js.isBlank (rateQuery form) = true ->
      is_Some out.1.1)
  /\ (out.1.1 = None ->
      is_Some (handleRateSave out.1.2 out.2).1.1
      /\ (handleRateSave out.1.2 out.2).2 = out.2)
  /\ (out.1.1 = None -> reachable w ->
      forall m : BookEntry,
        matched (rateQuery form) w = Some m ->
        keys_of (readStore out.2) = keys_of (readStore w)
        /\ {| book_key := book_key m;
              fields := {| title := title m; author := author m;
                           rating := rateRating form; shelf := shelf m;
                           genre := None; review := review m;
                           bookshelves := bookshelves m; isbn := isbn m;
                           source := recommended |};
              date_updated := clock w (now w) |} ∈ readStore out.2).
Proof.
  cbv zeta. unfold handleRateSave.
  set (m := matched (rateQuery form) w).
  set (ttl := match m with Some b => title b | None => Js.trim (rateQuery form) end).
  destruct (Js.truthy ttl) eqn:Httl; cbn [negb].
  2:{ split_and!; try done; by intros [= ?]. }
  destruct (Z.eqb_spec (rateRating form) 0) as [Hzero|Hrated].
  { split_and!; try done; by intros [= ?]. }
  cbn [fst snd]. split_and!.
  - by intros [? [=]].
  - done.
  - intros Hnone Hblank. subst ttl. fold m in Hnone. rewrite Hnone in Httl.
    pose proof (truthy_trim (rateQuery form)) as Htr.
    rewrite Hblank in Htr. simpl in Htr. congruence.
  - intros _. split; [|done]. by eexists.
  - intros _ [Hnd Hkeyed]%reachable_invariant m' Hm. subst ttl. fold m in Hm.
    rewrite Hm in *. pose proof (matched_stored _ _ _ Hm) as Hin.
    assert (book_key m' = keyOf m') as Hkey by by eapply Forall_forall in Hkeyed.
    set (b := {| title := title m'; rating := rateRating form;
                 source := recommended |}).
    assert (keyOf b = book_key m') as Hkb by by rewrite Hkey.
    split.
    + rewrite upsertBook_keys, Hkb. unfold set_add. rewrite decide_True; [done|].
      by apply list_elem_of_fmap_2.
    + pose proof (upsertBook_stored b w) as Hstored.
      unfold stamped in Hstored. by rewrite Hkb in Hstored.
Qed.

(** X16, worked example: Dune, found by its author, gets two stars. *)
Lemma handleRateSave_outcomes_example :
  keys_of (readStore
    (handleRateSave {| rateQuery := "herbert"; rateRating := 2;
                       rateSaved := false; lastAddedTitle := None |}
       sample_world).2)
  = keys_of (readStore sample_world).
Proof.
  apply (proj1 (proj2 (proj2 (proj2 (proj2 (handleRateSave_outcomes
           {| rateQuery := "herbert"; rateRating := 2;
              rateSaved := false; lastAddedTitle := None |} sample_world))))
           eq_refl
           (reach_merge [dune; emma] (fresh_world sample_clock)
              (reach_empty (fresh_world sample_clock) eq_refl))
           (stamped dune (sample_clock 0)) eq_refl)).
Defined.

(** ** Asking for recommendations *)

Section recommender_facts.
Context {Number : Type}.
Implicit Types (backend : RecommendRequest -> @FetchResult Number).
Implicit Types (st : @RecommenderState Number) (w : World).

Lemma fetchRecs_eq backend isRefresh st w :
  fetchRecs backend isRefresh st w =
    match request_sent st w with
    | None =>
        ({| genreMood := genreMood st; stage := error;
            errorText := "You need at least 3 rated books. Add more in My Library & Ratings.";
            recs := recs st; preferenceSummary := preferenceSummary st;
            batchNumber := batchNumber st; refreshing := refreshing st |}, w)
    | Some req =>
        match backend req with
        | HttpOk data =>
            ({| genreMood := genreMood st; stage := results; errorText := "";
                recs := recommendations data;
                preferenceSummary := preference_summary data;
                batchNumber := S (batchNumber st); refreshing := false |},
             addShownBookIds (google_books_id <$> recommendations data) w)
        | HttpNotOk detail =>
            ({| genreMood := genreMood st; stage := error;
                errorText := Js.orElse detail "Recommendation failed";
                recs := recs st; preferenceSummary := preferenceSummary st;
                batchNumber := batchNumber st; refreshing := false |}, w)
        | Rejected message =>
            ({| genreMood := genreMood st; stage := error; errorText := message;
                recs := recs st; preferenceSummary := preferenceSummary st;
                batchNumber := batchNumber st; refreshing := false |}, w)
        end
    end.
Proof.
  unfold fetchRecs, request_sent, getRecommendations.
  destruct (List.length (getRatedBooks w) <? 3)%nat; [done|].
  by destruct (backend _).
Qed.

Lemma fetchRecs_keeps_shown backend isRefresh st w x :
  x ∈ getShownBookIds w -> x ∈ getShownBookIds (fetchRecs backend isRefresh st w).2.
Proof.
  intros Hx. rewrite fetchRecs_eq.
  destruct (request_sent st w) as [req|]; [|done].
  destruct (backend req); [|done..]. by apply addShown_keeps.
Qed.

Lemma page_step_keeps_shown (s : RecommenderState * World) (ev : @PageEvent Number) x :
  x ∈ getShownBookIds s.2 -> x ∈ getShownBookIds (page_step s ev).2.
Proof.
  destruct ev as [isRefresh backend|text|rec rating|]; [|done..].
  apply fetchRecs_keeps_shown.
Qed.

Lemma page_steps_keep_shown (events : list (@PageEvent Number)) s x :
  x ∈ getShownBookIds s.2 ->
  x ∈ getShownBookIds (fold_left page_step events s).2.
Proof.
  revert s. induction events as [|ev events IH]; intros s Hx; [done|].
  simpl. by apply IH, page_step_keeps_shown.
Qed.

(** X17.  [fetchRecs] sends a request exactly when at least three books are
    rated; otherwise it ends in the error stage without consulting the
    backend and without touching the storage.  A request carries one entry
    per rated book, each with a rating of at least 1, the shown set as the
    exclusion list, a count of 5, and a mood that is null exactly when the
    typed mood is blank.  After a failed request the storage is as before
    and the page shows the error; after a successful one every returned id
    is in the shown set. *)
Theorem fetchRecs_request backend (isRefresh : bool) st w :
  (request_sent st w = None <-> List.length (getRatedBooks w) < 3)
  /\ (request_sent st w = None ->
      (fetchRecs backend isRefresh st w).2 = w
      /\ stage (fetchRecs backend isRefresh st w).1 = error
      /\ forall backend',
           fetchRecs backend' isRefresh st w = fetchRecs backend isRefresh st w)
  /\ (forall req,
        request_sent st w = Some req ->
        exclude_book_ids req = getShownBookIds w
        /\ List.length (read_books req) = List.length (getRatedBooks w)
        /\ (forall b, b ∈ read_books req -> (1 <= rb_rating b)%Z)
        /\ (genre_mood req = None <-> Js.isBlank (genreMood st) = true)
        /\ count req = 5
        /\ (forall data,
              backend req = HttpOk data ->
              stage (fetchRecs backend isRefresh st w).1 = results
              /\ recs (fetchRecs backend isRefresh st w).1 = recommendations data
              /\ readStore (fetchRecs backend isRefresh st w).2 = readStore w
              /\ forall r, r ∈ recommendations data ->
                   google_books_id r
                   ∈ getShownBookIds (fetchRecs backend isRefresh st w).2)
        /\ ((forall data, backend req <> HttpOk data) ->
            (fetchRecs backend isRefresh st w).2 = w
            /\ stage (fetchRecs backend isRefresh st w).1 = error
            /\ recs (fetchRecs backend isRefresh st w).1 = recs st)).
Proof.
  split_and!.
  - unfold request_sent. destruct (Nat.ltb_spec (List.length (getRatedBooks w)) 3);
      split; (done || lia).
  - intros Hnone. split_and!.
    + by rewrite fetchRecs_eq, Hnone.
    + by rewrite fetchRecs_eq, Hnone.
    + intros backend'. by rewrite !fetchRecs_eq, Hnone.
  - intros req Hreq. rewrite fetchRecs_eq, Hreq.
    unfold request_sent in Hreq.
    destruct (List.length (getRatedBooks w) <? 3)%nat; [done|].
    injection Hreq as <-. cbn [request_body exclude_book_ids read_books genre_mood count].
    split_and!; try done.
    + by rewrite length_fmap.
    + intros b (e & -> & He)%list_elem_of_fmap. cbn [rb_rating].
      unfold getRatedBooks in He. by apply list_elem_of_filter in He as [? _].
    + pose proof (truthy_trim (genreMood st)) as Htr.
      destruct (Js.trim (genreMood st)), (Js.isBlank (genreMood st)); by simpl in *.
    + intros data ->. cbn [fst snd]. split_and!; try done.
      intros r Hr. rewrite getShown_addShown. apply Set_new_elem, elem_of_app.
      right. by apply list_elem_of_fmap_2.
    + intros Hfail. destruct (backend _) as [data| |]; [by destruct (Hfail data)|done..].
Qed.

(** X18.  Once a request has returned recommendations, every later request
    of the page excludes their ids, whatever happens on the page in between
    (other requests, a typed mood, a rating, another try after an error) and
    whatever the backend answers to each request, be it the same request as
    before or not. *)
Theorem returned_ids_are_excluded
    backend (isRefresh : bool) (later : list (@PageEvent Number)) st w
    req data req' r :
  request_sent st w = Some req ->
  backend req = HttpOk data ->
  r ∈ recommendations data ->
  request_sent
    (fold_left page_step later (fetchRecs backend isRefresh st w)).1
    (fold_left page_step later (fetchRecs backend isRefresh st w)).2
  = Some req' ->
  google_books_id r ∈ exclude_book_ids req'.
Proof.
  intros Hreq Hdata Hr Hreq'.
  assert (google_books_id r
          ∈ getShownBookIds (fetchRecs backend isRefresh st w).2) as Hshown.
  { rewrite fetchRecs_eq, Hreq, Hdata. cbn [snd].
    rewrite getShown_addShown. apply Set_new_elem, elem_of_app.
    right. by apply list_elem_of_fmap_2. }
  apply (page_steps_keep_shown later) in Hshown.
  unfold request_sent in Hreq'.
  destruct (List.length (getRatedBooks _) <? 3)%nat; [done|].
  by injection Hreq' as <-.
Qed.

End recommender_facts.

(** X18, worked example: Hyperion is recommended; the reader types a mood,
    rates the book, asks again while the network is down and tries again:
    the next request excludes Hyperion. *)
Lemma returned_ids_are_excluded_example :
  request_sent sample_page.1 sample_page.2
  = Some (request_body (getRatedBooks sample_page.2) "space opera"
            (getShownBookIds sample_page.2))
  /\ google_books_id hyperion
     ∈ exclude_book_ids
         (request_body (getRatedBooks sample_page.2) "space opera"
            (getShownBookIds sample_page.2)).
Proof.
  split; [by vm_compute|].
  apply (returned_ids_are_excluded sample_backend false sample_events
           setup_state rated_world
           (request_body (getRatedBooks rated_world) "" [])
           {| recommendations := [hyperion]; preference_summary := "" |}
           (request_body (getRatedBooks sample_page.2) "space opera"
              (getShownBookIds sample_page.2))
           hyperion).
  - by vm_compute.
  - by vm_compute.
  - apply list_elem_of_here.
  - by vm_compute.
Defined.
